(** * ES-PIM mesh adjacency: a shallow embedding of [meshless/espim/read_mesh.py]

    The module builds, for a triangular mesh, the edges shared by its
    triangles and the cross references between nodes, edges and triangles.
    Both entry points, [read_mesh] (a parsed Nastran deck) and
    [read_delaunay] (a point cloud with its triangulation), end in the same
    four loops; they are embedded once, as [build_adjacency].

    Conventions of the embedding:
    - Python integers are [Z]; coordinates are never computed with, so their
      type is a section variable [coord] with the constant [zero] for [0.];
    - a Python [dict] whose iteration order the code relies on is an
      association list ([dict]) in insertion order, the order in which
      Python (3.7 and later) iterates a [dict]; [mesh.nodes], which is only
      ever indexed, is a [gmap];
    - a Python [set] is a [gset];
    - object references are replaced by identities: a node by its key in
      [mesh.nodes], an [Edge] by its key in [mesh.edges] (one [Edge] object
      is created per key), a triangle by its position in the list [trias]
      (hence in [mesh.elements]);
    - a raised exception is the [Raise] case of [result];
    - pyNastran is not part of the sources: its parser [read_bdf] is a
      parameter of [read_mesh_filepath], and what the code needs of
      [CTRIA3.get_edge_ids] and of the constructor [GRID] is modelled. *)

From stdpp Require Import gmap list strings sorting.

#[local] Set Warnings "-clear-no-such-hyp".

Set Default Proof Using "Type".

(** ** Exceptions and the error monad *)

Inductive exn : Type :=
  | NotImplementedError (kind : string)
  | KeyError (key : Z)
  | IndexError (i : Z)
  | ValueError
  | AssertionError
  | CrossReferenceError
  | OtherError (name : string).

Inductive result (A : Type) : Type :=
  | Ok (a : A)
  | Raise (e : exn).
Arguments Ok {A} a.
Arguments Raise {A} e.

#[global] Instance result_bind : MBind result :=
  λ A B (f : A → result B) (r : result A),
    match r with
    | Ok a => f a
    | Raise e => Raise e
    end.

(** A [for] loop whose body may raise. *)
Fixpoint foldlM {A B : Type} (f : A → B → result A) (a : A) (l : list B)
  : result A :=
  match l with
  | [] => Ok a
  | x :: l' => a' ← f a x; foldlM f a' l'
  end.

(** ** Insertion-ordered dictionaries *)

Definition EdgeKey : Type := (Z * Z)%type.

Abbreviation dict V := (list (EdgeKey * V)).

Fixpoint dict_get {V : Type} (k : EdgeKey) (d : dict V) : option V :=
  match d with
  | [] => None
  | (k', v) :: d' => if decide (k' = k) then Some v else dict_get k d'
  end.

(** [d[k] = v]: an existing key keeps its place, a new one goes last. *)
Fixpoint dict_set {V : Type} (k : EdgeKey) (v : V) (d : dict V) : dict V :=
  match d with
  | [] => [(k, v)]
  | (k', v') :: d' =>
      if decide (k' = k) then (k', v) :: d' else (k', v') :: dict_set k v d'
  end.

(** [d[k].append(t)] on a [defaultdict(list)]: a missing key is first
    inserted (last) with an empty list. *)
Fixpoint dd_append (k : EdgeKey) (t : nat) (d : dict (list nat))
  : dict (list nat) :=
  match d with
  | [] => [(k, [t])]
  | (k', ts) :: d' =>
      if decide (k' = k) then (k', ts ++ [t]) :: d'
      else (k', ts) :: dd_append k t d'
  end.

(** Python list indexing [l[i]]: negative indices count from the end. *)
Definition py_getitem {A : Type} (l : list A) (i : Z) : result A :=
  let n := Z.of_nat (length l) in
  let j := if decide (i < 0)%Z then (n + i)%Z else i in
  if decide (0 ≤ j < n)%Z then
    match l !! Z.to_nat j with
    | Some x => Ok x
    | None => Raise (IndexError i)
    end
  else Raise (IndexError i).

(** ** Elements of a parsed deck *)

Inductive Element : Type :=
  | CTRIA3 (eid : Z) (n1 n2 n3 : Z)
  | CQUAD4 (eid : Z) (n1 n2 n3 n4 : Z)
  | OtherElement (kind : string) (eid : Z) (nids : list Z).

Definition type_name (elem : Element) : string :=
  match elem with
  | CTRIA3 _ _ _ _ => "CTRIA3"
  | CQUAD4 _ _ _ _ _ => "CQUAD4"
  | OtherElement kind _ _ => kind
  end.

(** ** Triangles and edges *)

Record Tria : Type := mkTria {
  eid : Z;
  node_ids : Z * Z * Z;
  tria_edges : list EdgeKey;      (* tria.edges, a list of Edge objects *)
}.

Definition node_id_list (tria : Tria) : list Z :=
  let '(a, b, c) := node_ids tria in [a; b; c].

(** Modelled from the spec: [CTRIA3.get_edge_ids] belongs to the pyNastran
    library and is not part of the sources. Section 4.1 of the specification:
    exactly 3 node-id pairs, in the local order nodes 0-1, 1-2, 2-0, each
    canonicalised by sorting the pair ascending. *)
Definition edge_key (a b : Z) : EdgeKey := (Z.min a b, Z.max a b).

Definition get_edge_ids (tria : Tria) : list EdgeKey :=
  let '(a, b, c) := node_ids tria in
  [edge_key a b; edge_key b c; edge_key c a].

(** Modelled from the spec: the class [Edge] of [meshless/espim/classes.py]
    is not part of the sources. Section 3 of the specification: an edge
    refers to its two endpoint nodes and holds its supporting triangles;
    [Edge(n1, n2)] starts with no triangle. *)
Record Edge : Type := mkEdge {
  n1 : Z;
  n2 : Z;
  edge_trias : list nat;          (* edge.trias, a list of triangle objects *)
}.

Definition new_Edge (a b : Z) : Edge := mkEdge a b [].

Definition set_edge_trias (ts : list nat) (e : Edge) : Edge :=
  mkEdge (n1 e) (n2 e) ts.

Definition append_edge (k : EdgeKey) (tria : Tria) : Tria :=
  mkTria (eid tria) (node_ids tria) (tria_edges tria ++ [k]).

(** ** Vocabulary of the statements: traces of the loops *)

(** The [(edge_id, tria)] pairs in the order lines 44-46 visit them. *)
Definition edge_events (trias : list Tria) : list (EdgeKey * nat) :=
  concat (imap (λ i tria, (λ k, (k, i)) <$> get_edge_ids tria) trias).

Definition group_events (d : dict (list nat)) (evs : list (EdgeKey * nat))
  : dict (list nat) :=
  foldl (λ d '(k, i), dd_append k i d) d evs.

(** The triangles that an event list records for the key [k], in order. *)
Definition occ (k : EdgeKey) (evs : list (EdgeKey * nat)) : list nat :=
  (filter (λ ev, ev.1 = k) evs).*2.

(** The [(edge, tria)] pairs in the order lines 54-56 visit them. *)
Definition flatten (d : dict (list nat)) : list (EdgeKey * nat) :=
  d ≫= (λ '(k, ts), (λ i, (k, i)) <$> ts).

Definition edge_of (item : EdgeKey * list nat) : EdgeKey * Edge :=
  (item.1, mkEdge item.1.1 item.1.2 item.2).

Definition attach_event (trias : list Tria) (ev : EdgeKey * nat) : list Tria :=
  alter (append_edge ev.1) ev.2 trias.

Definition edges_at (n : Z) (ks : list EdgeKey) : list EdgeKey :=
  filter (λ k, k.1 = n ∨ k.2 = n) ks.

Definition eids_at (n : Z) (trias : list Tria) : list Z :=
  eid <$> filter (λ tria, n ∈ node_id_list tria) trias.

Definition is_CTRIA3 (elem : Element) : bool :=
  match elem with
  | CTRIA3 _ _ _ _ => true
  | _ => false
  end.

(** The triangle lines 36-38 make of a [CTRIA3] card. *)
Definition as_tria (elem : Element) : option Tria :=
  match elem with
  | CTRIA3 eid a b c => Some (mkTria eid (a, b, c) [])
  | _ => None
  end.

Definition is_KeyError (e : exn) : Prop := ∃ n, e = KeyError n.

Definition valid_index (n : nat) (i : Z) : Prop :=
  (- Z.of_nat n ≤ i < Z.of_nat n)%Z.

Definition valid_simplex (n : nat) (simplex : list Z) : Prop :=
  ∃ i1 i2 i3, simplex = [i1; i2; i3] ∧
    valid_index n i1 ∧ valid_index n i2 ∧ valid_index n i3.

(** The id of the node that the index [i] selects among [n] points. *)
Definition nid_at (n : nat) (i : Z) : Z := (i mod Z.of_nat n + 1)%Z.

Definition same_edge (k1 k2 : EdgeKey) : Prop :=
  k1 = k2 ∨ k1 = (k2.2, k2.1).

(** The [CTRIA3] card of a triangle. *)
Definition to_element (tria : Tria) : Element :=
  let '(a, b, c) := node_ids tria in CTRIA3 (eid tria) a b c.

(** The node id [n] is used by some [CTRIA3] element. *)
Definition referenced (elements : list Element) (n : Z) : Prop :=
  ∃ eid a b c, CTRIA3 eid a b c ∈ elements ∧ n ∈ [a; b; c].

(** The elements of a list in the order of their first occurrence. *)
Fixpoint first_occurrences (ks : list EdgeKey) : list EdgeKey :=
  match ks with
  | [] => []
  | k :: ks' => k :: filter (λ k', k' ≠ k) (first_occurrences ks')
  end.

(** All three node ids of the triangle differ. *)
Definition nondegenerate (tria : Tria) : Prop := NoDup (node_id_list tria).

Section Mesh.

Context {coord : Type} (zero : coord).

(** ** Nodes and the mesh *)

Record Node : Type := GRID {
  nid : Z;
  xyz : list coord;
  node_trias : gset Z;            (* node.trias, a set of element ids *)
  node_edges : gset EdgeKey;      (* node.edges, a set of Edge objects *)
  node_index : gset Z;            (* node.index *)
  node_prop : option Z;           (* node.prop *)
}.

(** Lines 28-31 and 99-102: the four slots a node gets. *)
Definition tag_node (node : Node) : Node :=
  GRID (nid node) (xyz node) ∅ ∅ ∅ None.

Definition add_edge (k : EdgeKey) (node : Node) : Node :=
  GRID (nid node) (xyz node) (node_trias node) ({[k]} ∪ node_edges node)
       (node_index node) (node_prop node).

Definition add_tria (t : Z) (node : Node) : Node :=
  GRID (nid node) (xyz node) ({[t]} ∪ node_trias node) (node_edges node)
       (node_index node) (node_prop node).

(** What [read_bdf] hands over: [mesh.nodes] and [mesh.elements] (the latter
    in the order of [mesh.elements.values()]). *)
Record BDF : Type := mkBDF {
  bdf_nodes : gmap Z Node;
  bdf_elements : list Element;
}.

(** The returned mesh: every element is a triangle by then. *)
Record Mesh : Type := mkMesh {
  mesh_nodes : gmap Z Node;
  mesh_elements : list Tria;
  mesh_edges : dict Edge;
}.

(** ** The four loops shared by both readers *)

(** [mesh.nodes[key]] *)
Definition nodes_getitem (nodes : gmap Z Node) (key : Z) : result Node :=
  match nodes !! key with
  | Some node => Ok node
  | None => Raise (KeyError key)
  end.

(** Lines 44-47 and 122-124. *)
Definition group_tria (edges_ids : dict (list nat)) (i : nat) (tria : Tria)
  : dict (list nat) :=
  foldl (λ edges_ids edge_id, dd_append edge_id i edges_ids)
        edges_ids (get_edge_ids tria).

Definition group_trias (trias : list Tria) : dict (list nat) :=
  foldl (λ edges_ids item, group_tria edges_ids item.1 item.2)
        [] (imap pair trias).

(** Lines 48-53 and 125-130. *)
Definition create_edge (st : gmap Z Node * dict Edge)
    (item : EdgeKey * list nat) : result (gmap Z Node * dict Edge) :=
  let '(nodes, edges) := st in
  let '((a, b), e_trias) := item in
  _ ← nodes_getitem nodes a;
  _ ← nodes_getitem nodes b;
  let edge := set_edge_trias e_trias (new_Edge a b) in
  let edges := dict_set (a, b) edge edges in
  let nodes := alter (add_edge (a, b)) a nodes in
  let nodes := alter (add_edge (a, b)) b nodes in
  Ok (nodes, edges).

Definition create_edges (nodes : gmap Z Node) (edges_ids : dict (list nat))
  : result (gmap Z Node * dict Edge) :=
  foldlM create_edge (nodes, []) edges_ids.

(** Lines 54-56 and 131-133. *)
Definition attach_edge (k : EdgeKey) (edge : Edge) (trias : list Tria)
  : list Tria :=
  foldl (λ trias i, alter (append_edge k) i trias) trias (edge_trias edge).

Definition attach_edges (edges : dict Edge) (trias : list Tria) : list Tria :=
  foldl (λ trias item, attach_edge item.1 item.2 trias) trias edges.

(** Lines 57-59 and 134-136. *)
Definition register_node (eid : Z) (nodes : gmap Z Node) (n : Z)
  : result (gmap Z Node) :=
  _ ← nodes_getitem nodes n;
  Ok (alter (add_tria eid) n nodes).

Definition register_tria (nodes : gmap Z Node) (tria : Tria)
  : result (gmap Z Node) :=
  foldlM (register_node (eid tria)) nodes (node_id_list tria).

Definition register_trias (nodes : gmap Z Node) (trias : list Tria)
  : result (gmap Z Node) :=
  foldlM register_tria nodes trias.

(** Lines 42-63 and 120-139. *)
Definition build_adjacency (nodes : gmap Z Node) (trias : list Tria)
  : result Mesh :=
  let edges_ids := group_trias trias in
  '(nodes, edges) ← create_edges nodes edges_ids;
  let trias := attach_edges edges trias in
  nodes ← register_trias nodes trias;
  Ok (mkMesh nodes trias edges).

(** ** [read_mesh] *)

(** Lines 33-41. *)
Definition collect_step (trias : list Tria) (elem : Element)
  : result (list Tria) :=
  match elem with
  | CTRIA3 eid a b c => Ok (trias ++ [mkTria eid (a, b, c) []])
  | _ => Raise (NotImplementedError (type_name elem))
  end.

Definition collect_trias (elements : list Element) : result (list Tria) :=
  foldlM collect_step [] elements.

(** Lines 27-63: what [read_mesh] does with the deck that [read_bdf] has
    returned. *)
Definition read_mesh (bdf : BDF) : result Mesh :=
  let nodes := tag_node <$> bdf_nodes bdf in
  trias ← collect_trias (bdf_elements bdf);
  build_adjacency nodes trias.

(** Lines 25-63, the whole function. The parser [read_bdf] of line 26
    belongs to pyNastran and is not part of the sources: it is a parameter,
    which for a file path returns a deck or raises ([CrossReferenceError],
    [AssertionError], ...); what it raises leaves [read_mesh] as it is. *)
Definition read_mesh_filepath (read_bdf : string → result BDF)
    (filepath : string) : result Mesh :=
  mesh ← read_bdf filepath;
  read_mesh mesh.

(** ** [read_delaunay] *)

(** Lines 95-96. *)
Definition embed_point (pt : list coord) : list coord :=
  match pt with
  | [x; y] => [x; y; zero]
  | _ => pt
  end.

(** Modelled from the spec: the constructor [GRID(nid, cp, cd, xyz)] of
    line 98 belongs to pyNastran and is not part of the sources. Section 3
    of the specification: a node has exactly 3 coordinates; pyNastran's
    constructor asserts it ([xyz.size == 3]) and raises [AssertionError] on
    any other number of coordinates. *)
Definition new_GRID (nid : Z) (xyz : list coord) : result Node :=
  if decide (length xyz = 3) then Ok (GRID nid xyz ∅ ∅ ∅ None)
  else Raise AssertionError.

(** Lines 92-104: the state is [(nid, nodes, mesh.nodes)]. *)
Definition make_node (st : Z * list Node * gmap Z Node) (pt : list coord)
  : result (Z * list Node * gmap Z Node) :=
  let '(nid, nodes, mesh_nodes) := st in
  let pt := embed_point pt in
  let nid := (nid + 1)%Z in
  node ← new_GRID nid pt;
  let node := tag_node node in
  Ok (nid, nodes ++ [node], <[nid := node]> mesh_nodes).

Definition make_nodes (points : list (list coord))
  : result (Z * list Node * gmap Z Node) :=
  foldlM make_node (0%Z, [], ∅) points.

(** Lines 105-119: the state is [(eid, trias)]. *)
Definition make_tria (nodes : list Node) (st : Z * list Tria)
    (simplex : list Z) : result (Z * list Tria) :=
  let '(eid, trias) := st in
  match simplex with
  | [i1; i2; i3] =>
      n1 ← py_getitem nodes i1;
      n2 ← py_getitem nodes i2;
      n3 ← py_getitem nodes i3;
      let eid := (eid + 1)%Z in
      let tria := mkTria eid (nid n1, nid n2, nid n3) [] in
      Ok (eid, trias ++ [tria])
  | _ => Raise ValueError
  end.

Definition make_trias (nodes : list Node) (simplices : list (list Z))
  : result (Z * list Tria) :=
  foldlM (make_tria nodes) (0%Z, []) simplices.

Definition read_delaunay (points : list (list coord))
    (simplices : list (list Z)) : result Mesh :=
  st ← make_nodes points;
  let '(_, nodes, mesh_nodes) := st in
  '(_, trias) ← make_trias nodes simplices;
  build_adjacency mesh_nodes trias.

(** ** Vocabulary of the statements: nodes, inputs and returned meshes *)

Definition extend_node (E : gset EdgeKey) (S : gset Z) (N : Node) : Node :=
  GRID (nid N) (xyz N) (S ∪ node_trias N) (E ∪ node_edges N)
       (node_index N) (node_prop N).

(** A node map and a triangle list as the readers hand them to
    [build_adjacency]: no adjacency recorded yet. *)
Definition fresh_input (nodes : gmap Z Node) (trias : list Tria) : Prop :=
  (∀ n N, nodes !! n = Some N → node_trias N = ∅ ∧ node_edges N = ∅) ∧
  Forall (λ T, tria_edges T = []) trias.

Definition node_of_point (j : nat) (pt : list coord) : Node :=
  GRID (Z.of_nat j + 1) (embed_point pt) ∅ ∅ ∅ None.

(** A point that the node loop accepts: 2 coordinates (then padded) or 3. *)
Definition good_point (pt : list coord) : Prop :=
  length pt = 2 ∨ length pt = 3.

(** The state [(nid, nodes, mesh.nodes)] that the node loop reaches when
    every point is accepted. *)
Definition insert_point (st : Z * list Node * gmap Z Node) (pt : list coord)
  : Z * list Node * gmap Z Node :=
  let '(nid, nodes, mesh_nodes) := st in
  let pt := embed_point pt in
  let nid := (nid + 1)%Z in
  let node := tag_node (GRID nid pt ∅ ∅ ∅ None) in
  (nid, nodes ++ [node], <[nid := node]> mesh_nodes).

Definition point_nodes (points : list (list coord))
  : Z * list Node * gmap Z Node :=
  foldl insert_point (0%Z, [], ∅) points.

(** The triangle lines 108-117 make of the [j]-th simplex. *)
Definition tria_of_simplex (nodes : list Node) (j : nat)
    (simplex : list Z) : result Tria :=
  match simplex with
  | [i1; i2; i3] =>
      n1 ← py_getitem nodes i1;
      n2 ← py_getitem nodes i2;
      n3 ← py_getitem nodes i3;
      Ok (mkTria (Z.of_nat j + 1) (nid n1, nid n2, nid n3) [])
  | _ => Raise ValueError
  end.

(** The meshes that [read_mesh] or [read_delaunay] can return. *)
Definition returned_mesh (mesh : Mesh) : Prop :=
  (∃ bdf, read_mesh bdf = Ok mesh) ∨
  (∃ points simplices, read_delaunay points simplices = Ok mesh).

(** A deck in which the edge (1, 2) is shared by three triangles. *)
Definition fan_bdf : BDF :=
  mkBDF (list_to_map
           ((λ n, (n, GRID n [zero; zero; zero] ∅ ∅ ∅ None))
              <$> [1; 2; 3; 4; 5]%Z))
        [CTRIA3 1 1 2 3; CTRIA3 2 1 2 4; CTRIA3 3 1 2 5].

End Mesh.

(** ** Concrete meshes *)

(** The unit square cut along the diagonal 2-3, both triangles
    counter-clockwise; coordinates are taken in [Z]. *)
Definition square_bdf : @BDF Z :=
  mkBDF (list_to_map [(1, GRID 1 [0; 0; 0] ∅ ∅ ∅ None);
                      (2, GRID 2 [1; 0; 0] ∅ ∅ ∅ None);
                      (3, GRID 3 [0; 1; 0] ∅ ∅ ∅ None);
                      (4, GRID 4 [1; 1; 0] ∅ ∅ ∅ None)]%Z)
        [CTRIA3 1 1 2 3; CTRIA3 2 4 3 2].

Definition square_points : list (list Z) := [[0; 0]; [1; 0]; [0; 1]; [1; 1]]%Z.
Definition square_simplices : list (list Z) := [[0; 1; 2]; [3; 2; 1]]%Z.

(** The mesh both readers return for the square. *)
Definition square_mesh : @Mesh Z :=
  mkMesh
    (list_to_map
       [(1, GRID 1 [0; 0; 0] {[1]} {[(1, 2); (1, 3)]} ∅ None);
        (2, GRID 2 [1; 0; 0] {[1; 2]} {[(1, 2); (2, 3); (2, 4)]} ∅ None);
        (3, GRID 3 [0; 1; 0] {[1; 2]} {[(2, 3); (1, 3); (3, 4)]} ∅ None);
        (4, GRID 4 [1; 1; 0] {[2]} {[(3, 4); (2, 4)]} ∅ None)]%Z)
    [mkTria 1 (1, 2, 3)%Z [(1, 2); (2, 3); (1, 3)]%Z;
     mkTria 2 (4, 3, 2)%Z [(2, 3); (3, 4); (2, 4)]%Z]
    [((1, 2)%Z, mkEdge 1 2 [0]);
     ((2, 3)%Z, mkEdge 2 3 [0; 1]);
     ((1, 3)%Z, mkEdge 1 3 [0]);
     ((3, 4)%Z, mkEdge 3 4 [1]);
     ((2, 4)%Z, mkEdge 2 4 [1])].

(** The claim C1 as the specification words it: the edge list follows the
    local enumeration of the triangle. *)
Definition local_edge_order {coord : Type} (mesh : @Mesh coord) : Prop :=
  ∀ i T, mesh_elements mesh !! i = Some T →
    length (tria_edges T) = 3 ∧
    ∀ j, tria_edges T !! j = get_edge_ids T !! j.

(** A deck with one triangle and one quadrilateral. *)
Definition quad_bdf : @BDF Z :=
  mkBDF (bdf_nodes square_bdf) [CTRIA3 1 1 2 3; CQUAD4 2 1 2 4 3].

(** Points with 2, 1, 4 and 3 coordinates. *)
Definition ragged_points : list (list Z) :=
  [[0; 0]; [1]; [0; 1; 5; 7]; [1; 1; 0]]%Z.

(** The claim C10 as the specification words it: points of any number of
    coordinates pass through, a point with other than 2 coordinates being
    stored unchanged; nothing but the simplices can make the call fail. *)
Definition dimension_unchecked {coord : Type} (zero : coord)
    (points : list (list coord)) (simplices : list (list Z)) : Prop :=
  Forall (valid_simplex (length points)) simplices →
  ∃ mesh, read_delaunay zero points simplices = Ok mesh ∧
    ∀ j pt, points !! j = Some pt →
      ∃ N, mesh_nodes mesh !! (Z.of_nat j + 1)%Z = Some N ∧
        xyz N = if decide (length pt = 2) then pt ++ [zero] else pt.

(** The square deck with a triangle that uses the unknown node id 9. *)
Definition dangling_bdf : @BDF Z :=
  mkBDF (bdf_nodes square_bdf) [CTRIA3 1 1 2 3; CTRIA3 2 4 3 9].

(** Simplices whose second entry has the index 7, out of range for the
    four points of the square. *)
Definition overflowing_simplices : list (list Z) := [[0; 1; 2]; [3; 7; 1]]%Z.

(** One simplex that selects the first point twice, and the mesh
    [read_delaunay] returns for it over the points of the square. *)
Definition degenerate_simplices : list (list Z) := [[0; 0; 1]]%Z.

Definition degenerate_mesh : @Mesh Z :=
  mkMesh
    (list_to_map
       [(1, GRID 1 [0; 0; 0] {[1]} {[(1, 1); (1, 2)]} ∅ None);
        (2, GRID 2 [1; 0; 0] {[1]} {[(1, 2)]} ∅ None);
        (3, GRID 3 [0; 1; 0] ∅ ∅ ∅ None);
        (4, GRID 4 [1; 1; 0] ∅ ∅ ∅ None)]%Z)
    [mkTria 1 (1, 1, 2)%Z [(1, 1); (1, 2); (1, 2)]%Z]
    [((1, 1)%Z, mkEdge 1 1 [0]);
     ((1, 2)%Z, mkEdge 1 2 [0; 0])].

(** ** Loops in the error monad *)

Lemma bind_Ok {A B : Type} (r : result A) (f : A → result B) (b : B) :
  (r ≫= f) = Ok b ↔ ∃ a, r = Ok a ∧ f a = Ok b.
Proof.
  destruct r as [a|e]; simpl; split.
  - eauto.
  - by intros (a' & [= <-] & ?).
  - done.
  - by intros (a' & ? & ?).
Qed.

Lemma foldlM_app {A B : Type} (f : A → B → result A) a l1 l2 :
  foldlM f a (l1 ++ l2) = (foldlM f a l1 ≫= λ a', foldlM f a' l2).
Proof.
  revert a. induction l1 as [|x l1 IH]; intros a; simpl; [done|].
  destruct (f a x) as [a'|e]; simpl; [apply IH|done].
Qed.

(** ** Pass 1: grouping triangles by edge key *)

Lemma group_events_app d evs1 evs2 :
  group_events d (evs1 ++ evs2) = group_events (group_events d evs1) evs2.
Proof. apply foldl_app. Qed.

Lemma group_trias_events_gen (g : nat → nat) d trias :
  foldl (λ edges_ids item, group_tria edges_ids item.1 item.2)
        d (imap (λ i t, (g i, t)) trias)
  = group_events d
      (concat (imap (λ i tria, (λ k, (k, g i)) <$> get_edge_ids tria) trias)).
Proof.
  revert d g. induction trias as [|t trias IH]; intros d g; [done|].
  simpl. rewrite group_events_app.
  specialize (IH (foldl (λ d k, dd_append k (g 0) d) d (get_edge_ids t)) (g ∘ S)).
  simpl in IH. etrans; [apply IH|]. f_equal.
  generalize (get_edge_ids t) as ks. clear. intros ks. revert d.
  induction ks as [|k ks IH]; intros d; simpl; [done|apply IH].
Qed.

Lemma group_trias_events trias :
  group_trias trias = group_events [] (edge_events trias).
Proof. apply (group_trias_events_gen id). Qed.

Lemma dict_get_dd_append k' k i d :
  dict_get k' (dd_append k i d) =
    if decide (k = k') then Some (default [] (dict_get k d) ++ [i])
    else dict_get k' d.
Proof.
  induction d as [|[k0 ts] d IH]; simpl.
  - repeat case_decide; naive_solver.
  - destruct (decide (k0 = k)) as [->|]; simpl.
    + repeat case_decide; naive_solver.
    + rewrite IH. repeat case_decide; naive_solver.
Qed.

Lemma dd_append_keys k i d :
  (dd_append k i d).*1 = if decide (k ∈ d.*1) then d.*1 else d.*1 ++ [k].
Proof.
  induction d as [|[k0 ts] d IH]; csimpl.
  - done.
  - destruct (decide (k0 = k)) as [->|Hne]; csimpl.
    + rewrite decide_True; [done|set_solver].
    + rewrite IH. destruct (decide (k ∈ d.*1)).
      * rewrite decide_True; [done|set_solver].
      * rewrite decide_False; [done|set_solver].
Qed.

Lemma dd_append_NoDup k i d : NoDup d.*1 → NoDup (dd_append k i d).*1.
Proof.
  intros Hd. rewrite dd_append_keys. case_decide; [done|].
  apply NoDup_app. split_and!; [done|set_solver|apply NoDup_singleton].
Qed.

Lemma group_events_NoDup d evs : NoDup d.*1 → NoDup (group_events d evs).*1.
Proof.
  revert d. induction evs as [|[k i] evs IH]; intros d Hd; simpl; [done|].
  apply IH. by apply dd_append_NoDup.
Qed.

Lemma occ_cons_eq k i evs : occ k ((k, i) :: evs) = i :: occ k evs.
Proof. unfold occ. by rewrite filter_cons_True. Qed.

Lemma occ_cons_ne k k' i evs : k' ≠ k → occ k ((k', i) :: evs) = occ k evs.
Proof. intros. unfold occ. by rewrite filter_cons_False. Qed.

Lemma dict_get_group_events k d evs :
  dict_get k (group_events d evs) =
    if decide (occ k evs = []) then dict_get k d
    else Some (default [] (dict_get k d) ++ occ k evs).
Proof.
  revert d. induction evs as [|[k' i] evs IH]; intros d; simpl; [done|].
  fold (group_events (dd_append k' i d) evs). rewrite IH, dict_get_dd_append.
  destruct (decide (k' = k)) as [->|Hne].
  - rewrite occ_cons_eq. simpl. rewrite <-(assoc_L (++)). simpl.
    case_decide as Ho; [by rewrite Ho|done].
  - by rewrite occ_cons_ne.
Qed.

Lemma dict_get_Some_elem_of {V : Type} k (v : V) (d : dict V) :
  dict_get k d = Some v → (k, v) ∈ d.
Proof.
  induction d as [|[k0 v0] d IH]; simpl; [done|].
  case_decide; [intros [= ->]; subst; left|right; auto].
Qed.

Lemma elem_of_dict_get {V : Type} k (v : V) (d : dict V) :
  NoDup d.*1 → (k, v) ∈ d → dict_get k d = Some v.
Proof.
  induction d as [|[k0 v0] d IH]; simpl; [by inversion 2|].
  rewrite NoDup_cons. intros [Hk0 Hd] [[= -> ->]|Hin]%elem_of_cons.
  - by rewrite decide_True.
  - rewrite decide_False; [auto|].
    intros ->. apply Hk0. apply list_elem_of_fmap. by exists (k, v).
Qed.

Lemma dict_get_None {V : Type} k (d : dict V) :
  dict_get k d = None ↔ k ∉ d.*1.
Proof.
  induction d as [|[k0 v0] d IH]; simpl; [set_solver|].
  case_decide; [set_solver|]. rewrite IH. set_solver.
Qed.

Lemma dict_get_is_Some {V : Type} k (d : dict V) :
  is_Some (dict_get k d) ↔ k ∈ d.*1.
Proof.
  rewrite <-not_eq_None_Some, dict_get_None.
  destruct (decide (k ∈ d.*1)); naive_solver.
Qed.

Lemma flatten_dd_append k i d : flatten (dd_append k i d) ≡ₚ flatten d ++ [(k, i)].
Proof.
  unfold flatten. induction d as [|[k0 ts] d IH]; csimpl; [done|].
  destruct (decide (k0 = k)) as [->|Hne]; csimpl.
  - rewrite fmap_app. csimpl. rewrite <-!(assoc_L (++)).
    f_equiv. apply Permutation_app_comm.
  - rewrite IH. by rewrite (assoc_L (++)).
Qed.

Lemma flatten_group_events d evs :
  flatten (group_events d evs) ≡ₚ flatten d ++ evs.
Proof.
  revert d. induction evs as [|[k i] evs IH]; intros d; simpl.
  - by rewrite (right_id_L [] (++)).
  - fold (group_events (dd_append k i d) evs).
    rewrite IH, flatten_dd_append, <-(assoc_L (++)). done.
Qed.

Lemma filter_snd_flatten i d :
  (filter (λ ev, ev.2 = i) (flatten d)).*1
  = d ≫= (λ '(k, ts), replicate (length (filter (λ j, j = i) ts)) k).
Proof.
  unfold flatten. induction d as [|[k ts] d IH]; csimpl; [done|].
  rewrite filter_app, fmap_app, IH. f_equal. clear.
  induction ts as [|j ts IH]; csimpl; [done|].
  destruct (decide (j = i)) as [->|Hne].
  - rewrite !filter_cons_True by done. csimpl. by rewrite IH.
  - rewrite !filter_cons_False by done. done.
Qed.

Lemma filter_snd_tagged (x y : nat) (ks : list EdgeKey) :
  filter (λ ev : EdgeKey * nat, ev.2 = x) ((λ k, (k, y)) <$> ks)
  = if decide (y = x) then (λ k, (k, y)) <$> ks else [].
Proof.
  induction ks as [|k ks IH]; csimpl; [by case_decide|].
  destruct (decide (y = x)) as [->|Hne].
  - rewrite filter_cons_True by done. by rewrite IH.
  - rewrite filter_cons_False by done. done.
Qed.

Lemma filter_edge_events_none (g : nat → nat) x trias :
  (∀ j, g j ≠ x) →
  filter (λ ev, ev.2 = x)
    (concat (imap (λ j tria, (λ k, (k, g j)) <$> get_edge_ids tria) trias))
  = [].
Proof.
  revert g. induction trias as [|t trias IH]; intros g Hg; [done|].
  rewrite imap_cons. csimpl. rewrite filter_app, filter_snd_tagged.
  rewrite decide_False by done. simpl. apply (IH (g ∘ S)). intros j. apply Hg.
Qed.

Lemma filter_edge_events_gen (g : nat → nat) i trias :
  Inj (=) (=) g →
  filter (λ ev, ev.2 = g i)
    (concat (imap (λ j tria, (λ k, (k, g j)) <$> get_edge_ids tria) trias))
  = from_option (λ tria, (λ k, (k, g i)) <$> get_edge_ids tria) [] (trias !! i).
Proof.
  intros Hg. revert g i Hg.
  induction trias as [|t trias IH]; intros g i Hg; [done|].
  rewrite imap_cons. csimpl. rewrite filter_app, filter_snd_tagged.
  destruct i as [|i]; simpl.
  - rewrite decide_True by done.
    rewrite (filter_edge_events_none (g ∘ S)); [by rewrite (right_id_L [] (++))|].
    intros j Hj. by apply Hg in Hj.
  - rewrite decide_False by (intros Hj; by apply Hg in Hj). simpl.
    apply (IH (g ∘ S)). intros j1 j2 Hj. apply Hg in Hj. by simplify_eq.
Qed.

Lemma filter_edge_events i trias :
  filter (λ ev, ev.2 = i) (edge_events trias)
  = from_option (λ tria, (λ k, (k, i)) <$> get_edge_ids tria) [] (trias !! i).
Proof. apply (filter_edge_events_gen id). apply _. Qed.

(** ** Pass 3: attaching the edges to the triangles *)

Lemma attach_edges_flatten d trias :
  attach_edges (edge_of <$> d) trias = foldl attach_event trias (flatten d).
Proof.
  unfold attach_edges, flatten. revert trias.
  induction d as [|[k ts] d IH]; intros trias; csimpl; [done|].
  rewrite foldl_app, IH. f_equal. clear. revert trias.
  induction ts as [|i ts IH]; intros trias; csimpl; [done|]. apply IH.
Qed.

Lemma attach_events_lookup evs trias i :
  foldl attach_event trias evs !! i
  = (λ T, mkTria (eid T) (node_ids T)
                 (tria_edges T ++ (filter (λ ev, ev.2 = i) evs).*1))
      <$> trias !! i.
Proof.
  revert trias. induction evs as [|[k j] evs IH]; intros trias; simpl.
  - destruct (trias !! i) as [[]|]; simpl; [|done].
    by rewrite (right_id_L [] (++)).
  - rewrite IH. unfold attach_event at 1. simpl.
    destruct (decide (j = i)) as [->|Hne].
    + rewrite list_lookup_alter_eq, filter_cons_True by done.
      destruct (trias !! i) as [[]|]; simpl; [|done].
      by rewrite <-(assoc_L (++)).
    + rewrite list_lookup_alter_ne, filter_cons_False by done. done.
Qed.

Lemma attach_events_length evs trias :
  length (foldl attach_event trias evs) = length trias.
Proof.
  revert trias. induction evs as [|ev evs IH]; intros trias; simpl; [done|].
  rewrite IH. unfold attach_event. by rewrite length_alter.
Qed.

(** ** Passes 2 and 4: the nodes *)

Section Nodes.

Context {coord : Type}.
Implicit Types (nodes : gmap Z (@Node coord)) (N : @Node coord).

Lemma nodes_getitem_Ok nodes n N :
  nodes_getitem nodes n = Ok N ↔ nodes !! n = Some N.
Proof. unfold nodes_getitem. destruct (nodes !! n); naive_solver. Qed.

Lemma nodes_getitem_is_Some nodes n :
  is_Some (nodes !! n) → ∃ N, nodes_getitem nodes n = Ok N.
Proof. intros [N HN]. exists N. by apply nodes_getitem_Ok. Qed.

Lemma create_edge_Ok nodes edges a b ts st :
  create_edge (nodes, edges) ((a, b), ts) = Ok st ↔
    is_Some (nodes !! a) ∧ is_Some (nodes !! b) ∧
    st = (alter (add_edge (a, b)) b (alter (add_edge (a, b)) a nodes),
          dict_set (a, b) (mkEdge a b ts) edges).
Proof.
  unfold create_edge, nodes_getitem.
  destruct (nodes !! a), (nodes !! b); simpl; split;
    try (intros [= <-]); try (intros ([??] & [??] & ->)); naive_solver.
Qed.

Lemma extend_node_add_edge E k N :
  extend_node E ∅ (add_edge k N) = extend_node ({[k]} ∪ E) ∅ N.
Proof. unfold extend_node, add_edge. simpl. f_equal; set_solver. Qed.

Lemma extend_node_add_tria S t N :
  extend_node ∅ S (add_tria t N) = extend_node ∅ ({[t]} ∪ S) N.
Proof. unfold extend_node, add_tria. simpl. f_equal; set_solver. Qed.

Lemma lookup_alter_twice (f : @Node coord → @Node coord) a b nodes n :
  alter f b (alter f a nodes) !! n
  = (if decide (b = n) then f else id)
      <$> ((if decide (a = n) then f else id) <$> nodes !! n).
Proof.
  destruct (decide (b = n)) as [->|Hb], (decide (a = n)) as [->|Ha];
    rewrite ?lookup_alter_eq, ?lookup_alter_ne, ?lookup_alter_eq by done;
    by rewrite ?option_fmap_id.
Qed.

Lemma create_edges_nodes d nodes edges nodes' edges' n :
  foldlM create_edge (nodes, edges) d = Ok (nodes', edges') →
  nodes' !! n = extend_node (list_to_set (edges_at n d.*1)) ∅ <$> nodes !! n.
Proof.
  revert nodes edges. induction d as [|[[a b] ts] d IH]; intros nodes edges.
  - simpl. intros [= <- <-]. destruct (nodes !! n) as [N|]; simpl; [|done].
    f_equal. destruct N. unfold extend_node. simpl. f_equal; set_solver.
  - simpl. intros (st & Hst & Hd)%bind_Ok.
    apply create_edge_Ok in Hst as (_ & _ & ->).
    rewrite (IH _ _ Hd), lookup_alter_twice. unfold edges_at. csimpl.
    destruct (nodes !! n) as [N|]; [|done]. simpl. f_equal.
    destruct (decide (a = n)) as [->|Ha], (decide (b = n)) as [->|Hb]; simpl;
      rewrite ?extend_node_add_edge;
      [rewrite filter_cons_True by (simpl; auto)..
      |rewrite filter_cons_False by (simpl; naive_solver)];
      unfold extend_node; f_equal; set_solver.
Qed.

Lemma dict_set_fresh {V : Type} k (v : V) (d : dict V) :
  k ∉ d.*1 → dict_set k v d = d ++ [(k, v)].
Proof.
  induction d as [|[k0 v0] d IH]; csimpl; [done|].
  intros Hk. rewrite decide_False by set_solver. rewrite IH; [done|set_solver].
Qed.

Lemma create_edges_edges d nodes edges nodes' edges' :
  NoDup (edges.*1 ++ d.*1) →
  foldlM create_edge (nodes, edges) d = Ok (nodes', edges') →
  edges' = edges ++ (edge_of <$> d).
Proof.
  revert nodes edges. induction d as [|[[a b] ts] d IH]; intros nodes edges.
  - simpl. intros _ [= <- <-]. by rewrite (right_id_L [] (++)).
  - csimpl. intros Hnd (st & Hst & Hd)%bind_Ok.
    apply create_edge_Ok in Hst as (_ & _ & ->).
    assert ((a, b) ∉ edges.*1) as Hfresh.
    { apply NoDup_app in Hnd as (_ & Hnd & _). intros Hin.
      apply (Hnd _ Hin). left. }
    rewrite dict_set_fresh in Hd by done.
    apply IH in Hd.
    + rewrite Hd, <-(assoc_L (++)). done.
    + rewrite fmap_app. csimpl. by rewrite <-(assoc_L (++)).
Qed.

Lemma create_edges_present d nodes edges nodes' edges' :
  foldlM create_edge (nodes, edges) d = Ok (nodes', edges') →
  ∀ k, k ∈ d.*1 → is_Some (nodes !! k.1) ∧ is_Some (nodes !! k.2).
Proof.
  revert nodes edges. induction d as [|[[a b] ts] d IH]; intros nodes edges.
  - simpl. intros _ k Hk. by apply elem_of_nil in Hk.
  - csimpl. intros (st & Hst & Hd)%bind_Ok k Hk.
    apply create_edge_Ok in Hst as (Ha & Hb & ->).
    apply elem_of_cons in Hk as [->|Hk]; [done|].
    destruct (IH _ _ Hd k Hk) as [H1 H2].
    rewrite !lookup_alter_is_Some in H1, H2. done.
Qed.

Lemma create_edges_total d nodes edges :
  (∀ k, k ∈ d.*1 → is_Some (nodes !! k.1) ∧ is_Some (nodes !! k.2)) →
  ∃ st, foldlM create_edge (nodes, edges) d = Ok st.
Proof.
  revert nodes edges. induction d as [|[[a b] ts] d IH]; intros nodes edges Hd.
  - simpl. eauto.
  - destruct (Hd (a, b)) as [Ha Hb]; [left|].
    change (foldlM create_edge (nodes, edges) ((a, b, ts) :: d))
      with (create_edge (nodes, edges) (a, b, ts)
              ≫= λ st, foldlM create_edge st d).
    erewrite (proj2 (create_edge_Ok _ _ _ _ _ _)); [|done].
    apply IH. intros k Hk. rewrite !lookup_alter_is_Some. apply Hd. by right.
Qed.

Lemma extend_node_compose E1 S1 E2 S2 N :
  extend_node E2 S2 (extend_node E1 S1 N) = extend_node (E1 ∪ E2) (S1 ∪ S2) N.
Proof. unfold extend_node. simpl. f_equal; set_solver. Qed.

Lemma register_node_Ok t nodes n nodes' :
  register_node t nodes n = Ok nodes' ↔
    is_Some (nodes !! n) ∧ nodes' = alter (add_tria t) n nodes.
Proof.
  unfold register_node, nodes_getitem. destruct (nodes !! n); simpl; split;
    try (intros [= <-]); try (intros ([??] & ->)); naive_solver.
Qed.

Lemma register_nodes_lookup t ns nodes nodes' n :
  foldlM (register_node t) nodes ns = Ok nodes' →
  nodes' !! n
  = extend_node ∅ (if decide (n ∈ ns) then {[t]} else ∅) <$> nodes !! n.
Proof.
  revert nodes. induction ns as [|m ns IH]; intros nodes.
  - simpl. intros [= <-]. destruct (nodes !! n) as [N|]; simpl; [|done].
    f_equal. destruct N. unfold extend_node. simpl. f_equal; set_solver.
  - simpl. intros (nodes1 & [_ ->]%register_node_Ok & Hns)%bind_Ok.
    rewrite (IH _ Hns). destruct (decide (m = n)) as [->|Hne].
    + rewrite lookup_alter_eq. destruct (nodes !! n) as [N|]; simpl; [|done].
      f_equal. rewrite extend_node_add_tria.
      rewrite (decide_True (P := n ∈ n :: ns)) by left.
      unfold extend_node. f_equal. case_decide; set_solver.
    + rewrite lookup_alter_ne by done. do 3 f_equal.
      destruct (decide (n ∈ ns)).
      * rewrite decide_True; [done|by right].
      * rewrite decide_False; [done|set_solver].
Qed.

Lemma register_nodes_present t ns nodes nodes' :
  foldlM (register_node t) nodes ns = Ok nodes' →
  ∀ m, m ∈ ns → is_Some (nodes !! m).
Proof.
  revert nodes. induction ns as [|m0 ns IH]; intros nodes.
  - intros _ m Hm. by apply elem_of_nil in Hm.
  - simpl. intros (nodes1 & [Hm0 ->]%register_node_Ok & Hns)%bind_Ok m.
    intros [->|Hm]%elem_of_cons; [done|].
    specialize (IH _ Hns m Hm). by rewrite lookup_alter_is_Some in IH.
Qed.

Lemma register_nodes_total t ns nodes :
  (∀ m, m ∈ ns → is_Some (nodes !! m)) →
  ∃ nodes', foldlM (register_node t) nodes ns = Ok nodes'.
Proof.
  revert nodes. induction ns as [|m0 ns IH]; intros nodes Hns; simpl; [eauto|].
  erewrite (proj2 (register_node_Ok _ _ _ _)); [|split; [|done]; apply Hns; left].
  simpl. apply IH. intros m Hm. rewrite lookup_alter_is_Some. apply Hns. by right.
Qed.

Lemma register_tria_unfold nodes tria :
  register_tria nodes tria
  = foldlM (register_node (eid tria)) nodes (node_id_list tria).
Proof. done. Qed.

Lemma register_trias_lookup trias nodes nodes' n :
  register_trias nodes trias = Ok nodes' →
  nodes' !! n = extend_node ∅ (list_to_set (eids_at n trias)) <$> nodes !! n.
Proof.
  unfold register_trias. revert nodes.
  induction trias as [|T trias IH]; intros nodes.
  - simpl. intros [= <-]. destruct (nodes !! n) as [N|]; simpl; [|done].
    f_equal. destruct N. unfold extend_node. simpl. f_equal; set_solver.
  - simpl. intros (nodes1 & HT & Htrias)%bind_Ok.
    rewrite register_tria_unfold in HT.
    rewrite (IH _ Htrias), (register_nodes_lookup _ _ _ _ n HT).
    destruct (nodes !! n) as [N|]; simpl; [|done]. f_equal.
    rewrite extend_node_compose. unfold extend_node, eids_at. f_equal.
    case_decide.
    + rewrite filter_cons_True by done. set_solver.
    + rewrite filter_cons_False by done. set_solver.
Qed.

Lemma register_trias_present trias nodes nodes' :
  register_trias nodes trias = Ok nodes' →
  ∀ T m, T ∈ trias → m ∈ node_id_list T → is_Some (nodes !! m).
Proof.
  unfold register_trias. revert nodes.
  induction trias as [|T0 trias IH]; intros nodes.
  - intros _ T m HT. by apply elem_of_nil in HT.
  - simpl. intros (nodes1 & HT0 & Htrias)%bind_Ok T m.
    rewrite register_tria_unfold in HT0.
    intros [->|HT]%elem_of_cons Hm.
    + by eapply register_nodes_present.
    + specialize (IH _ Htrias T m HT Hm).
      rewrite (register_nodes_lookup _ _ _ _ m HT0) in IH.
      by apply fmap_is_Some in IH.
Qed.

Lemma register_trias_total trias nodes :
  (∀ T m, T ∈ trias → m ∈ node_id_list T → is_Some (nodes !! m)) →
  ∃ nodes', register_trias nodes trias = Ok nodes'.
Proof.
  unfold register_trias. revert nodes.
  induction trias as [|T0 trias IH]; intros nodes Hall; simpl; [eauto|].
  rewrite register_tria_unfold.
  destruct (register_nodes_total (eid T0) (node_id_list T0) nodes)
    as [nodes1 H1]; [intros m Hm; eapply Hall; [left|done]|].
  rewrite H1. simpl. apply IH. intros T m HT Hm.
  rewrite (register_nodes_lookup _ _ _ _ m H1). apply fmap_is_Some.
  eapply Hall; [by right|done].
Qed.

End Nodes.

(** ** Edge keys *)

Lemma edge_key_cases a b :
  edge_key a b = (a, b) ∧ (a ≤ b)%Z ∨ edge_key a b = (b, a) ∧ (b ≤ a)%Z.
Proof.
  unfold edge_key. destruct (decide (a ≤ b)%Z).
  - left. split; [|done]. f_equal; lia.
  - right. split; [|lia]. f_equal; lia.
Qed.

Lemma edge_key_comm a b : edge_key a b = edge_key b a.
Proof. unfold edge_key. f_equal; lia. Qed.

Lemma get_edge_ids_endpoints tria k :
  k ∈ get_edge_ids tria →
  k.1 ∈ node_id_list tria ∧ k.2 ∈ node_id_list tria ∧ (k.1 ≤ k.2)%Z.
Proof.
  unfold get_edge_ids, node_id_list. destruct (node_ids tria) as [[a b] c].
  intros Hk.
  assert (∃ x y, k = edge_key x y ∧ x ∈ [a; b; c] ∧ y ∈ [a; b; c])
    as (x & y & -> & Hx & Hy).
  { rewrite !elem_of_cons in Hk. destruct Hk as [->|[->|[->|Hk]]];
      [..|by apply elem_of_nil in Hk]; eexists _, _; (split; [done|]);
      set_solver. }
  destruct (edge_key_cases x y) as [[-> ?]|[-> ?]]; simpl; done.
Qed.

Lemma node_id_list_covered tria m :
  m ∈ node_id_list tria →
  ∃ k, k ∈ get_edge_ids tria ∧ (k.1 = m ∨ k.2 = m).
Proof.
  unfold get_edge_ids, node_id_list. destruct (node_ids tria) as [[a b] c].
  rewrite !elem_of_cons. intros [->|[->|[->|Hm]]].
  - exists (edge_key a b). split; [set_solver|].
    destruct (edge_key_cases a b) as [[-> ?]|[-> ?]]; simpl; auto.
  - exists (edge_key b c). split; [set_solver|].
    destruct (edge_key_cases b c) as [[-> ?]|[-> ?]]; simpl; auto.
  - exists (edge_key c a). split; [set_solver|].
    destruct (edge_key_cases c a) as [[-> ?]|[-> ?]]; simpl; auto.
  - by apply elem_of_nil in Hm.
Qed.

Lemma length_get_edge_ids tria : length (get_edge_ids tria) = 3.
Proof. unfold get_edge_ids. by destruct (node_ids tria) as [[a b] c]. Qed.

(** ** What the grouping holds *)

Lemma elem_of_edge_events k i trias :
  (k, i) ∈ edge_events trias ↔
    ∃ tria, trias !! i = Some tria ∧ k ∈ get_edge_ids tria.
Proof.
  trans ((k, i) ∈ filter (λ ev, ev.2 = i) (edge_events trias)).
  { rewrite list_elem_of_filter. naive_solver. }
  rewrite filter_edge_events. destruct (trias !! i) as [T|]; simpl.
  - rewrite list_elem_of_fmap. naive_solver.
  - rewrite elem_of_nil. naive_solver.
Qed.

Lemma elem_of_occ k i evs : i ∈ occ k evs ↔ (k, i) ∈ evs.
Proof.
  unfold occ. rewrite list_elem_of_fmap. split.
  - intros ([k' i'] & -> & [Hk ?]%list_elem_of_filter). simpl in *. by subst.
  - intros Hin. exists (k, i). split; [done|]. by apply list_elem_of_filter.
Qed.

Lemma occ_nil k evs : occ k evs = [] ↔ k ∉ evs.*1.
Proof.
  induction evs as [|[k' i] evs IH]; csimpl; [set_solver|].
  destruct (decide (k' = k)) as [->|Hne].
  - rewrite occ_cons_eq. set_solver.
  - rewrite occ_cons_ne by done. set_solver.
Qed.

Lemma dict_get_group k evs ts :
  dict_get k (group_events [] evs) = Some ts ↔ ts = occ k evs ∧ ts ≠ [].
Proof.
  rewrite dict_get_group_events. simpl. case_decide as Ho.
  - rewrite Ho. naive_solver.
  - naive_solver.
Qed.

Lemma elem_of_group_keys k evs :
  k ∈ (group_events [] evs).*1 ↔ k ∈ evs.*1.
Proof.
  rewrite <-dict_get_is_Some. unfold is_Some.
  setoid_rewrite dict_get_group. split.
  - intros (ts & -> & Hne). destruct (decide (k ∈ evs.*1)) as [|Hk]; [done|].
    by apply occ_nil in Hk.
  - intros Hk. exists (occ k evs). split; [done|]. rewrite occ_nil. auto.
Qed.

Lemma elem_of_group k ts evs :
  (k, ts) ∈ group_events [] evs ↔ ts = occ k evs ∧ ts ≠ [].
Proof.
  rewrite <-dict_get_group. split.
  - apply elem_of_dict_get. apply group_events_NoDup. constructor.
  - apply dict_get_Some_elem_of.
Qed.

Lemma elem_of_edge_events_keys k trias :
  k ∈ (edge_events trias).*1 ↔
    ∃ i tria, trias !! i = Some tria ∧ k ∈ get_edge_ids tria.
Proof.
  rewrite list_elem_of_fmap. split.
  - intros ([k' i] & -> & Hin). exists i. by apply elem_of_edge_events.
  - intros (i & T & HT & Hk). exists (k, i). split; [done|].
    apply elem_of_edge_events. eauto.
Qed.

Lemma dict_get_edge_of k (d : dict (list nat)) :
  dict_get k (edge_of <$> d) = (λ ts, mkEdge k.1 k.2 ts) <$> dict_get k d.
Proof.
  induction d as [|[k0 ts] d IH]; csimpl; [done|].
  unfold edge_of at 1. simpl. case_decide; [by subst|done].
Qed.

Lemma edge_of_keys (d : dict (list nat)) : (edge_of <$> d).*1 = d.*1.
Proof. rewrite <-list_fmap_compose. by apply list_fmap_ext. Qed.

(** ** The adjacency builder as a whole *)

Section Build.

Context {coord : Type}.
Implicit Types (nodes : gmap Z (@Node coord)) (mesh : @Mesh coord).

Lemma same_ids_eids_at n (l l' : list Tria) :
  Forall2 (λ T T', eid T = eid T' ∧ node_ids T = node_ids T') l l' →
  eids_at n l = eids_at n l'.
Proof.
  unfold eids_at. induction 1 as [|T T' l l' [He Hn] _ IH]; [done|].
  assert (node_id_list T = node_id_list T') as Hl.
  { unfold node_id_list. by rewrite Hn. }
  destruct (decide (n ∈ node_id_list T)) as [Hin|Hin].
  - rewrite !filter_cons_True by (by rewrite <-?Hl). csimpl. by rewrite IH, He.
  - rewrite !filter_cons_False by (by rewrite <-?Hl). done.
Qed.

Lemma attach_same_ids evs trias :
  Forall2 (λ T T', eid T = eid T' ∧ node_ids T = node_ids T')
          (foldl attach_event trias evs) trias.
Proof.
  apply Forall2_same_length_lookup. split; [apply attach_events_length|].
  intros i T T'. rewrite attach_events_lookup. intros HT HT'.
  rewrite HT' in HT. simpl in HT. by injection HT as <-.
Qed.

(** What [build_adjacency] returns, pass by pass. *)
Lemma build_adjacency_Ok nodes trias mesh :
  build_adjacency nodes trias = Ok mesh →
  let evs := edge_events trias in
  let d := group_events [] evs in
  mesh_edges mesh = edge_of <$> d ∧
  mesh_elements mesh = foldl attach_event trias (flatten d) ∧
  (∀ n, mesh_nodes mesh !! n
        = extend_node (list_to_set (edges_at n d.*1))
                      (list_to_set (eids_at n trias)) <$> nodes !! n) ∧
  (∀ T m, T ∈ trias → m ∈ node_id_list T → is_Some (nodes !! m)).
Proof.
  unfold build_adjacency. rewrite group_trias_events. simpl.
  intros ([nodes1 edges] & Hce & (nodes2 & Hrt & [= <-])%bind_Ok)%bind_Ok.
  unfold create_edges in Hce.
  pose proof (group_events_NoDup [] (edge_events trias) (NoDup_nil_2)) as Hnd.
  pose proof (create_edges_edges _ _ [] _ _ Hnd Hce) as He.
  simpl in He. subst edges. simpl.
  rewrite attach_edges_flatten. rewrite attach_edges_flatten in Hrt.
  split_and!; [done..| |].
  - intros n. rewrite (register_trias_lookup _ _ _ n Hrt).
    rewrite (create_edges_nodes _ _ _ _ _ n Hce).
    rewrite (same_ids_eids_at n _ _ (attach_same_ids _ _)).
    destruct (nodes !! n) as [N|]; simpl; [|done].
    rewrite extend_node_compose. f_equal. f_equal; set_solver.
  - intros T m [i HT]%list_elem_of_lookup Hm.
    destruct (node_id_list_covered T m Hm) as (k & Hk & Hkm).
    assert (k ∈ (group_events [] (edge_events trias)).*1) as Hin.
    { apply elem_of_group_keys, elem_of_edge_events_keys. eauto. }
    destruct (create_edges_present _ _ _ _ _ Hce k Hin) as [H1 H2].
    by destruct Hkm as [<-|<-].
Qed.

(** [build_adjacency] raises exactly when a triangle refers to a node id
    that [mesh.nodes] lacks. *)
Lemma build_adjacency_total nodes trias :
  (∀ T m, T ∈ trias → m ∈ node_id_list T → is_Some (nodes !! m)) →
  ∃ mesh, build_adjacency nodes trias = Ok mesh.
Proof.
  intros Hall. unfold build_adjacency. rewrite group_trias_events.
  destruct (create_edges_total (group_events [] (edge_events trias)) nodes [])
    as [[nodes1 edges] Hce].
  { intros k (i & T & HT & Hk)%elem_of_group_keys%elem_of_edge_events_keys.
    destruct (get_edge_ids_endpoints T k Hk) as (H1 & H2 & _).
    split; eapply Hall; eauto using list_elem_of_lookup_2. }
  unfold create_edges. rewrite Hce. simpl.
  pose proof (group_events_NoDup [] (edge_events trias) (NoDup_nil_2)) as Hnd.
  pose proof (create_edges_edges _ _ [] _ _ Hnd Hce) as He.
  simpl in He. subst edges. simpl.
  rewrite attach_edges_flatten.
  destruct (register_trias_total
              (foldl attach_event trias (flatten (group_events [] (edge_events trias))))
              nodes1) as [nodes2 Hrt].
  { intros T m [i HT]%list_elem_of_lookup Hm.
    rewrite attach_events_lookup in HT.
    destruct (trias !! i) as [T0|] eqn:HT0; [|done]. simpl in HT.
    injection HT as <-. rewrite (create_edges_nodes _ _ _ _ _ m Hce).
    apply fmap_is_Some. eapply Hall; [by eapply list_elem_of_lookup_2|done]. }
  rewrite Hrt. simpl. eauto.
Qed.

End Build.

(** ** The two readers *)

Lemma collect_trias_unfold elements :
  collect_trias elements = foldlM collect_step [] elements.
Proof. done. Qed.

Lemma collect_step_Ok trias elem trias' :
  collect_step trias elem = Ok trias' ↔
    ∃ T, as_tria elem = Some T ∧ trias' = trias ++ [T].
Proof. destruct elem; simpl; naive_solver. Qed.

Lemma collect_step_Raise trias elem e :
  collect_step trias elem = Raise e ↔
    is_CTRIA3 elem = false ∧ e = NotImplementedError (type_name elem).
Proof. destruct elem; simpl; naive_solver. Qed.

Lemma collect_steps_Ok elements acc trias :
  foldlM collect_step acc elements = Ok trias ↔
    ∃ ts, as_tria <$> elements = Some <$> ts ∧ trias = acc ++ ts.
Proof.
  revert acc. induction elements as [|elem elements IH]; intros acc; simpl.
  - split.
    + intros [= <-]. exists []. by rewrite (right_id_L [] (++)).
    + intros (ts & Hts & ->). symmetry in Hts. apply fmap_nil_inv in Hts as ->.
      by rewrite (right_id_L [] (++)).
  - rewrite bind_Ok. setoid_rewrite collect_step_Ok. setoid_rewrite IH. split.
    + intros (? & (T & HT & ->) & ts & Hts & ->). exists (T :: ts). csimpl.
      rewrite HT, Hts, <-(assoc_L (++)). done.
    + intros ([|T ts] & Hts & ->); [done|]. csimpl in Hts.
      injection Hts as HT Hts. exists (acc ++ [T]). split; [eauto|].
      exists ts. by rewrite <-(assoc_L (++)).
Qed.

Lemma collect_steps_Raise elements acc e :
  foldlM collect_step acc elements = Raise e ↔
    ∃ pre elem rest, elements = pre ++ elem :: rest ∧
      Forall (λ x, is_CTRIA3 x = true) pre ∧ is_CTRIA3 elem = false ∧
      e = NotImplementedError (type_name elem).
Proof.
  revert acc. induction elements as [|elem elements IH]; intros acc; simpl.
  - split; [done|]. intros (pre & ? & ? & Heq & _). by destruct pre.
  - destruct (collect_step acc elem) as [acc'|e'] eqn:Hstep; simpl.
    + apply collect_step_Ok in Hstep as (T & HT & ->). rewrite IH. split.
      * intros (pre & x & rest & -> & Hpre & Hx & ->).
        exists (elem :: pre), x, rest. split_and!; [done| |done..].
        constructor; [by destruct elem|done].
      * intros ([|y pre] & x & rest & Heq & Hpre & Hx & ->);
          simplify_eq/=; [by destruct x|].
        apply Forall_cons in Hpre as [_ Hpre]. eauto 10.
    + apply collect_step_Raise in Hstep as [Hel ->]. split.
      * intros [= <-]. exists [], elem, elements. by split_and!.
      * intros ([|y pre] & x & rest & Heq & Hpre & Hx & ->);
          simplify_eq/=; [done|].
        apply Forall_cons in Hpre as [Hy _]. congruence.
Qed.

Lemma collect_trias_fresh elements trias :
  collect_trias elements = Ok trias → Forall (λ T, tria_edges T = []) trias.
Proof.
  rewrite collect_trias_unfold, collect_steps_Ok.
  intros (ts & Hts & ->). simpl. apply Forall_forall. intros T HT.
  apply list_elem_of_lookup in HT as [i HT].
  apply (f_equal (λ l, l !! i)) in Hts. rewrite !list_lookup_fmap, HT in Hts.
  destruct (elements !! i) as [[]|]; simplify_eq/=. done.
Qed.

Lemma foldlM_Raise {A B : Type} (P : exn → Prop) (f : A → B → result A) a l e :
  (∀ a x e, f a x = Raise e → P e) → foldlM f a l = Raise e → P e.
Proof.
  intros Hf. revert a. induction l as [|x l IH]; intros a; simpl; [done|].
  destruct (f a x) as [a'|e'] eqn:Hfx; simpl; [apply IH|].
  intros [= <-]. eauto.
Qed.

Section Readers.

Context {coord : Type} (zero : coord).
Implicit Types (nodes : gmap Z (@Node coord)) (mesh : @Mesh coord).

Lemma nodes_getitem_Raise nodes n e :
  nodes_getitem nodes n = Raise e → is_KeyError e.
Proof. unfold nodes_getitem. destruct (nodes !! n); [done|]. intros [= <-]. by exists n. Qed.

Lemma build_adjacency_Raise nodes trias e :
  build_adjacency nodes trias = Raise e → is_KeyError e.
Proof.
  unfold build_adjacency, create_edges.
  destruct (foldlM create_edge _ _) as [[nodes1 edges]|e1] eqn:Hce; simpl.
  - destruct (register_trias _ _) as [nodes2|e2] eqn:Hrt; simpl; [done|].
    intros [= <-]. revert Hrt. unfold register_trias.
    apply foldlM_Raise. intros nodes' T e. rewrite register_tria_unfold.
    apply foldlM_Raise. clear. intros nodes n e. unfold register_node.
    destruct (nodes_getitem nodes n) eqn:Hg; simpl; [done|].
    intros [= <-]. by eapply nodes_getitem_Raise.
  - intros [= <-]. revert Hce. apply foldlM_Raise. clear.
    intros [nodes edges] [[a b] ts] e. unfold create_edge.
    destruct (nodes_getitem nodes a) eqn:Ha; simpl;
      [|intros [= <-]; by eapply nodes_getitem_Raise].
    destruct (nodes_getitem nodes b) eqn:Hb; simpl;
      [done|intros [= <-]; by eapply nodes_getitem_Raise].
Qed.

Lemma read_mesh_Ok bdf mesh :
  read_mesh bdf = Ok mesh ↔
    ∃ trias, as_tria <$> bdf_elements bdf = Some <$> trias ∧
      build_adjacency (tag_node <$> bdf_nodes bdf) trias = Ok mesh.
Proof.
  unfold read_mesh. rewrite bind_Ok.
  setoid_rewrite collect_trias_unfold. setoid_rewrite collect_steps_Ok.
  naive_solver.
Qed.

Lemma read_mesh_fresh bdf mesh :
  read_mesh bdf = Ok mesh →
  ∃ nodes trias, fresh_input nodes trias ∧ build_adjacency nodes trias = Ok mesh.
Proof.
  unfold read_mesh. intros (trias & Hc & Hb)%bind_Ok.
  exists (tag_node <$> bdf_nodes bdf), trias. split; [split|done].
  - intros n N. rewrite lookup_fmap. destruct (bdf_nodes bdf !! n); [|done].
    by intros [= <-].
  - by eapply collect_trias_fresh.
Qed.

(** *** [read_delaunay]: the nodes *)

Lemma point_nodes_snoc points pt :
  point_nodes zero (points ++ [pt])
  = let '(nid, nodes, mesh_nodes) := point_nodes zero points in
    let node := GRID (nid + 1)%Z (embed_point zero pt) ∅ ∅ ∅ None in
    ((nid + 1)%Z, nodes ++ [node], <[(nid + 1)%Z := node]> mesh_nodes).
Proof.
  unfold point_nodes. rewrite foldl_app. simpl.
  by destruct (foldl _ _ points) as [[nid nodes] mesh_nodes].
Qed.

Lemma point_nodes_spec points :
  ∃ mesh_nodes,
    point_nodes zero points
    = (Z.of_nat (length points), imap (node_of_point zero) points, mesh_nodes) ∧
    ∀ n, mesh_nodes !! n
         = if decide (1 ≤ n ≤ Z.of_nat (length points))%Z
           then imap (node_of_point zero) points !! Z.to_nat (n - 1) else None.
Proof.
  induction points as [|pt points IH] using rev_ind.
  - exists ∅. split; [done|]. intros n. rewrite lookup_empty.
    by case_decide.
  - destruct IH as (m & Hmk & Hm). rewrite point_nodes_snoc, Hmk.
    eexists. split.
    + rewrite length_app, imap_app. simpl. repeat f_equal; [lia|].
      unfold node_of_point. do 2 f_equal. lia.
    + intros n. rewrite length_app. simpl.
      destruct (decide (n = Z.of_nat (length points) + 1)%Z) as [->|Hne].
      * rewrite lookup_insert_eq, decide_True by lia.
        rewrite imap_app, lookup_app_r; rewrite length_imap; [|lia].
        replace (Z.to_nat _ - length points) with 0 by lia. simpl.
        unfold node_of_point. do 2 f_equal. lia.
      * rewrite lookup_insert_ne, Hm by done. case_decide.
        -- rewrite decide_True by lia. rewrite imap_app, lookup_app_l; [done|].
           rewrite length_imap. lia.
        -- rewrite decide_False by lia. done.
Qed.

(** *** [read_delaunay]: the triangles *)

Lemma make_trias_unfold (nl : list (@Node coord)) simplices :
  make_trias nl simplices = foldlM (make_tria nl) (0%Z, []) simplices.
Proof. done. Qed.

Lemma make_tria_Ok (nl : list (@Node coord)) j trias simplex st :
  make_tria nl (Z.of_nat j, trias) simplex = Ok st ↔
    ∃ T, tria_of_simplex nl j simplex = Ok T ∧
      st = (Z.of_nat (S j), trias ++ [T]).
Proof.
  unfold make_tria, tria_of_simplex.
  destruct simplex as [|i1 [|i2 [|i3 [|]]]]; try naive_solver.
  destruct (py_getitem nl i1) as [N1|]; simpl; [|naive_solver].
  destruct (py_getitem nl i2) as [N2|]; simpl; [|naive_solver].
  destruct (py_getitem nl i3) as [N3|]; simpl; [|naive_solver].
  replace (Z.of_nat (S j)) with (Z.of_nat j + 1)%Z by lia. naive_solver.
Qed.

Lemma make_trias_Ok (nl : list (@Node coord)) simplices eid trias :
  make_trias nl simplices = Ok (eid, trias) ↔
    eid = Z.of_nat (length simplices) ∧
    imap (tria_of_simplex nl) simplices = Ok <$> trias.
Proof.
  rewrite make_trias_unfold. revert eid trias.
  induction simplices as [|s simplices IH] using rev_ind; intros eid trias.
  - simpl. split.
    + by intros [= <- <-].
    + intros [-> Hts]. symmetry in Hts. by apply fmap_nil_inv in Hts as ->.
  - rewrite foldlM_app, bind_Ok, length_app, imap_app. simpl. split.
    + intros ([eid0 ts0] & [-> Hts0]%IH & Hs).
      rewrite bind_Ok in Hs. destruct Hs as (st & Hst & [= ->]).
      apply make_tria_Ok in Hst as (T & HT & [= -> ->]).
      split; [lia|]. rewrite fmap_app, Hts0. simpl.
      by rewrite Nat.add_0_r, HT.
    + intros [-> Hts].
      destruct trias as [|T trias _] using rev_ind.
      { apply (f_equal length) in Hts.
        rewrite length_app, length_imap in Hts. simpl in Hts. lia. }
      rewrite fmap_app in Hts. simpl in Hts.
      apply app_inj_2 in Hts as [Hts [= HT]]; [|done].
      rewrite Nat.add_0_r in HT.
      exists (Z.of_nat (length simplices), trias). split; [by apply IH|].
      rewrite bind_Ok. eexists. split; [|done].
      apply make_tria_Ok. exists T. split; [done|]. f_equal. lia.
Qed.

Lemma py_getitem_Ok {A : Type} (l : list A) (i : Z) (x : A) :
  py_getitem l i = Ok x ↔
    let n := Z.of_nat (length l) in
    (-n ≤ i < n)%Z ∧ l !! Z.to_nat (i mod n) = Some x.
Proof.
  unfold py_getitem. simpl.
  destruct (decide (i < 0)%Z) as [Hneg|Hpos].
  - case_decide as Hr.
    + replace (i mod Z.of_nat (length l))%Z with (Z.of_nat (length l) + i)%Z.
      * destruct (l !! _); naive_solver lia.
      * apply Z.mod_unique with (q := (-1)%Z); lia.
    + split; [done|]. lia.
  - case_decide as Hr.
    + rewrite Z.mod_small by lia. destruct (l !! _); naive_solver lia.
    + split; [done|]. lia.
Qed.

Lemma py_getitem_points points i N :
  py_getitem (imap (node_of_point zero) points) i = Ok N ↔
    valid_index (length points) i ∧
    ∃ pt, points !! Z.to_nat (i mod Z.of_nat (length points)) = Some pt ∧
      N = GRID (nid_at (length points) i) (embed_point zero pt) ∅ ∅ ∅ None.
Proof.
  rewrite py_getitem_Ok. simpl. rewrite length_imap, list_lookup_imap.
  unfold valid_index, nid_at, node_of_point. split.
  - intros [Hi HN]. split; [done|].
    destruct (points !! _) as [pt|]; [|done]. simpl in HN. injection HN as <-.
    exists pt. split; [done|]. f_equal.
    rewrite Z2Nat.id; [done|]. apply Z.mod_pos_bound. lia.
  - intros [Hi (pt & -> & ->)]. split; [done|]. simpl. do 2 f_equal.
    rewrite Z2Nat.id; [done|]. apply Z.mod_pos_bound. lia.
Qed.

Lemma py_getitem_points_total points i :
  valid_index (length points) i →
  ∃ N, py_getitem (imap (node_of_point zero) points) i = Ok N.
Proof.
  intros Hi. unfold valid_index in Hi.
  destruct (lookup_lt_is_Some_2 points
              (Z.to_nat (i mod Z.of_nat (length points)))) as [pt Hpt].
  { pose proof (Z.mod_pos_bound i (Z.of_nat (length points))). lia. }
  eexists. apply py_getitem_points. eauto.
Qed.

Lemma tria_of_simplex_Ok points j simplex T :
  tria_of_simplex (imap (node_of_point zero) points) j simplex = Ok T ↔
    valid_simplex (length points) simplex ∧
    ∃ i1 i2 i3, simplex = [i1; i2; i3] ∧
      T = mkTria (Z.of_nat j + 1)
            (nid_at (length points) i1, nid_at (length points) i2,
             nid_at (length points) i3) [].
Proof.
  unfold tria_of_simplex, valid_simplex.
  destruct simplex as [|i1 [|i2 [|i3 [|]]]]; try naive_solver.
  destruct (py_getitem _ i1) as [N1|e1] eqn:H1; simpl.
  2:{ split; [done|]. intros [(? & ? & ? & [= <- <- <-] & Hi & _) _].
      apply py_getitem_points_total in Hi as [? Hi]. congruence. }
  destruct (py_getitem _ i2) as [N2|e2] eqn:H2; simpl.
  2:{ split; [done|]. intros [(? & ? & ? & [= <- <- <-] & _ & Hi & _) _].
      apply py_getitem_points_total in Hi as [? Hi]. congruence. }
  destruct (py_getitem _ i3) as [N3|e3] eqn:H3; simpl.
  2:{ split; [done|]. intros [(? & ? & ? & [= <- <- <-] & _ & _ & Hi) _].
      apply py_getitem_points_total in Hi as [? Hi]. congruence. }
  apply py_getitem_points in H1 as [? (? & _ & ->)].
  apply py_getitem_points in H2 as [? (? & _ & ->)].
  apply py_getitem_points in H3 as [? (? & _ & ->)]. simpl.
  naive_solver.
Qed.

(** *** [read_delaunay]: the constructor's check *)

Lemma embed_point_good (pt : list coord) :
  length (embed_point zero pt) = 3 ↔ good_point pt.
Proof.
  unfold good_point. destruct pt as [|x [|y [|z [|w pt]]]]; simpl; lia.
Qed.

Lemma make_node_Ok st pt st' :
  make_node zero st pt = Ok st' ↔ good_point pt ∧ st' = insert_point zero st pt.
Proof.
  destruct st as [[n nl] m]. unfold make_node, insert_point, new_GRID.
  rewrite <-embed_point_good. case_decide; simpl; naive_solver.
Qed.

Lemma make_node_Raise st pt e :
  make_node zero st pt = Raise e ↔ ¬ good_point pt ∧ e = AssertionError.
Proof.
  destruct st as [[n nl] m]. unfold make_node, new_GRID.
  rewrite <-embed_point_good. case_decide; simpl; naive_solver.
Qed.

Lemma make_nodes_from_Ok st points st' :
  foldlM (make_node zero) st points = Ok st' ↔
    Forall good_point points ∧ st' = foldl (insert_point zero) st points.
Proof.
  revert st. induction points as [|pt points IH]; intros st; simpl.
  - split; [by intros [= <-]|by intros [_ ->]].
  - rewrite bind_Ok. setoid_rewrite make_node_Ok. setoid_rewrite IH.
    rewrite Forall_cons. naive_solver.
Qed.

Lemma make_nodes_Ok points st :
  make_nodes zero points = Ok st ↔
    Forall good_point points ∧ st = point_nodes zero points.
Proof. apply make_nodes_from_Ok. Qed.

(** The node loop raises at the first point that has neither 2 nor 3
    coordinates. *)
Lemma make_nodes_from_Raise st points e :
  foldlM (make_node zero) st points = Raise e ↔
    e = AssertionError ∧
    ∃ pre pt rest, points = pre ++ pt :: rest ∧
      Forall good_point pre ∧ ¬ good_point pt.
Proof.
  revert st. induction points as [|pt points IH]; intros st; simpl.
  - split; [done|]. intros (_ & pre & ? & ? & Heq & _). by destruct pre.
  - destruct (make_node zero st pt) as [st'|e'] eqn:Hst; simpl.
    + apply make_node_Ok in Hst as [Hpt ->]. rewrite IH. split.
      * intros (-> & pre & x & rest & -> & Hpre & Hx). split; [done|].
        exists (pt :: pre), x, rest. split_and!; [done| |done]. by constructor.
      * intros (-> & [|y pre] & x & rest & Heq & Hpre & Hx);
          simplify_eq/=; [done|].
        apply Forall_cons in Hpre as [_ Hpre]. eauto 10.
    + apply make_node_Raise in Hst as [Hpt ->]. split.
      * intros [= <-]. split; [done|]. exists [], pt, points. by split_and!.
      * intros (-> & _). done.
Qed.

Lemma make_nodes_Raise points e :
  make_nodes zero points = Raise e ↔
    e = AssertionError ∧
    ∃ pre pt rest, points = pre ++ pt :: rest ∧
      Forall good_point pre ∧ ¬ good_point pt.
Proof. apply make_nodes_from_Raise. Qed.

Lemma read_delaunay_Ok points simplices mesh :
  read_delaunay zero points simplices = Ok mesh ↔
    Forall good_point points ∧
    ∃ trias,
      imap (tria_of_simplex (imap (node_of_point zero) points)) simplices
        = Ok <$> trias ∧
      build_adjacency (point_nodes zero points).2 trias = Ok mesh.
Proof.
  unfold read_delaunay. rewrite bind_Ok. setoid_rewrite make_nodes_Ok.
  destruct (point_nodes_spec points) as (m & Hmk & _). split.
  - intros (st & [Hgood ->] & Hst). split; [done|]. rewrite Hmk in Hst |- *.
    simpl in *. apply bind_Ok in Hst as ([eid trias] & [_ Hts]%make_trias_Ok & Hb).
    eauto.
  - intros (Hgood & trias & Hts & Hb). exists (point_nodes zero points).
    split; [done|]. rewrite Hmk in Hb |- *. simpl in *. apply bind_Ok.
    exists (Z.of_nat (length simplices), trias).
    split; [by apply make_trias_Ok|done].
Qed.

Lemma delaunay_trias_lookup points simplices trias j T :
  imap (tria_of_simplex (imap (node_of_point zero) points)) simplices = Ok <$> trias →
  trias !! j = Some T →
  ∃ i1 i2 i3, simplices !! j = Some [i1; i2; i3] ∧
    valid_simplex (length points) [i1; i2; i3] ∧
    T = mkTria (Z.of_nat j + 1)
          (nid_at (length points) i1, nid_at (length points) i2,
           nid_at (length points) i3) [].
Proof.
  intros Hts HT. apply (f_equal (λ l, l !! j)) in Hts.
  rewrite list_lookup_imap, list_lookup_fmap, HT in Hts. simpl in Hts.
  destruct (simplices !! j) as [s|]; [|done]. simpl in Hts.
  injection Hts as Hs. apply tria_of_simplex_Ok in Hs
    as [Hv (i1 & i2 & i3 & -> & ->)]. eauto 10.
Qed.

Lemma nid_at_bounds n i :
  valid_index n i → (1 ≤ nid_at n i ≤ Z.of_nat n)%Z.
Proof.
  unfold valid_index, nid_at. intros Hi.
  pose proof (Z.mod_pos_bound i (Z.of_nat n)). lia.
Qed.

Lemma point_nodes_lookup points n :
  (point_nodes zero points).2 !! n
  = if decide (1 ≤ n ≤ Z.of_nat (length points))%Z
    then (λ pt, GRID n (embed_point zero pt) ∅ ∅ ∅ None)
           <$> points !! Z.to_nat (n - 1)
    else None.
Proof.
  destruct (point_nodes_spec points) as (m & -> & Hm). simpl. rewrite Hm.
  case_decide; [|done]. rewrite list_lookup_imap.
  destruct (points !! _); [|done]. simpl. unfold node_of_point.
  do 2 f_equal. lia.
Qed.

Lemma read_delaunay_fresh points simplices mesh :
  read_delaunay zero points simplices = Ok mesh →
  ∃ nodes trias, fresh_input nodes trias ∧ build_adjacency nodes trias = Ok mesh.
Proof.
  intros (_ & trias & Hts & Hb)%read_delaunay_Ok.
  eexists _, trias. split; [split|done].
  - intros n N. rewrite point_nodes_lookup. case_decide; [|done].
    destruct (points !! _); [|done]. by intros [= <-].
  - apply Forall_forall. intros T [j HT]%list_elem_of_lookup.
    destruct (delaunay_trias_lookup _ _ _ _ _ Hts HT)
      as (? & ? & ? & _ & _ & ->). done.
Qed.

(** [read_delaunay] returns exactly when every point has 2 or 3
    coordinates and every simplex is a triple of indices into [points]. *)
Lemma read_delaunay_total points simplices :
  (∃ mesh, read_delaunay zero points simplices = Ok mesh) ↔
    Forall good_point points ∧
    Forall (valid_simplex (length points)) simplices.
Proof.
  split.
  - intros [mesh (Hgood & trias & Hts & _)%read_delaunay_Ok].
    split; [done|].
    apply Forall_forall. intros s [j Hs]%list_elem_of_lookup.
    apply (f_equal (λ l, l !! j)) in Hts.
    rewrite list_lookup_imap, list_lookup_fmap, Hs in Hts. simpl in Hts.
    destruct (trias !! j) as [T|]; [|done]. injection Hts as Hts.
    by apply tria_of_simplex_Ok in Hts as [? _].
  - intros [Hgood Hall].
    assert (∃ trias, imap (tria_of_simplex (imap (node_of_point zero) points)) simplices
                     = Ok <$> trias) as [trias Hts].
    { induction simplices as [|s simplices IH] using rev_ind; [by exists []|].
      apply Forall_app in Hall as [Hall [Hs _]%Forall_cons].
      destruct (IH Hall) as [trias Hts].
      destruct Hs as (i1 & i2 & i3 & -> & Hi).
      pose (T := mkTria (Z.of_nat (length simplices + 0) + 1)
                   (nid_at (length points) i1, nid_at (length points) i2,
                    nid_at (length points) i3) []).
      assert (tria_of_simplex (imap (node_of_point zero) points)
                (length simplices + 0) [i1; i2; i3] = Ok T) as HT.
      { apply tria_of_simplex_Ok. split; [|eauto 10]. by exists i1, i2, i3. }
      exists (trias ++ [T]). rewrite imap_app, fmap_app, Hts.
      cbn [imap]. by rewrite HT. }
    destruct (build_adjacency_total (point_nodes zero points).2 trias)
      as [mesh Hb].
    { intros T m [j HT]%list_elem_of_lookup Hm.
      destruct (delaunay_trias_lookup _ _ _ _ _ Hts HT)
        as (i1 & i2 & i3 & _ & (? & ? & ? & [= <- <- <-] & H1 & H2 & H3) & ->).
      rewrite point_nodes_lookup.
      apply nid_at_bounds in H1, H2, H3.
      unfold node_id_list in Hm. simpl in Hm.
      assert (1 ≤ m ≤ Z.of_nat (length points))%Z as Hb.
      { rewrite !elem_of_cons, elem_of_nil in Hm. naive_solver. }
      rewrite decide_True by done. apply fmap_is_Some.
      apply lookup_lt_is_Some_2. lia. }
    exists mesh. apply read_delaunay_Ok. eauto.
Qed.

(** A point with neither 2 nor 3 coordinates makes [read_delaunay] raise
    [AssertionError], whatever the simplices. *)
Lemma read_delaunay_bad_point points simplices pt :
  pt ∈ points → ¬ good_point pt →
  read_delaunay zero points simplices = Raise AssertionError.
Proof.
  intros Hin Hbad. unfold read_delaunay.
  destruct (make_nodes zero points) as [st|e] eqn:Hmk; simpl.
  - apply make_nodes_Ok in Hmk as [Hgood _].
    rewrite Forall_forall in Hgood. destruct Hbad. auto.
  - by apply make_nodes_Raise in Hmk as [-> _].
Qed.

(** Every mesh the whole [read_mesh] returns is one the loops of lines
    27-63 return for the deck the parser handed over. *)
Lemma read_mesh_filepath_Ok (read_bdf : string → result (@BDF coord))
    filepath mesh :
  read_mesh_filepath read_bdf filepath = Ok mesh ↔
    ∃ bdf, read_bdf filepath = Ok bdf ∧ read_mesh bdf = Ok mesh.
Proof. unfold read_mesh_filepath. apply bind_Ok. Qed.

Lemma read_mesh_filepath_returned (read_bdf : string → result (@BDF coord))
    filepath mesh :
  read_mesh_filepath read_bdf filepath = Ok mesh → returned_mesh zero mesh.
Proof. intros (bdf & _ & Hrm)%read_mesh_filepath_Ok. left. eauto. Qed.

End Readers.

(** ** Counting occurrences in the traces *)

Lemma length_filter_occ i k evs :
  length (filter (λ j, j = i) (occ k evs))
  = length (filter (λ ev, ev.1 = k) (filter (λ ev, ev.2 = i) evs)).
Proof.
  induction evs as [|[k' j] evs IH]; [done|].
  destruct (decide (k' = k)) as [->|Hk].
  - rewrite occ_cons_eq. destruct (decide (j = i)) as [->|Hj].
    + rewrite !filter_cons_True by done. simpl. by rewrite IH.
    + rewrite !filter_cons_False by done. done.
  - rewrite occ_cons_ne by done. destruct (decide (j = i)) as [->|Hj].
    + rewrite (filter_cons_True (λ ev, ev.2 = i)) by done.
      rewrite filter_cons_False by done. done.
    + rewrite filter_cons_False by done. done.
Qed.

Lemma length_filter_tagged (i : nat) (k : EdgeKey) (ks : list EdgeKey) :
  length (filter (λ ev : EdgeKey * nat, ev.1 = k) ((λ k', (k', i)) <$> ks))
  = length (filter (λ k', k' = k) ks).
Proof.
  induction ks as [|k' ks IH]; [done|]. csimpl.
  destruct (decide (k' = k)) as [->|Hk].
  - rewrite !filter_cons_True by done. simpl. by rewrite IH.
  - rewrite !filter_cons_False by done. done.
Qed.

Lemma bind_replicate_ext (c : EdgeKey → list nat → nat) (c' : EdgeKey → nat)
    (d : dict (list nat)) :
  (∀ k ts, (k, ts) ∈ d → c k ts = c' k) →
  d ≫= (λ '(k, ts), replicate (c k ts) k) = d.*1 ≫= (λ k, replicate (c' k) k).
Proof.
  induction d as [|[k ts] d IH]; intros Hc; csimpl; [done|].
  rewrite IH, (Hc k ts); [done|left|]. intros k' ts' Hin. apply Hc. by right.
Qed.

Lemma edge_events_same_ids_gen (g : nat → nat) (l l' : list Tria) :
  Forall2 (λ T T', eid T = eid T' ∧ node_ids T = node_ids T') l l' →
  concat (imap (λ j tria, (λ k, (k, g j)) <$> get_edge_ids tria) l)
  = concat (imap (λ j tria, (λ k, (k, g j)) <$> get_edge_ids tria) l').
Proof.
  intros H. revert g. induction H as [|T T' l l' [_ Hn] _ IH]; intros g; [done|].
  rewrite !imap_cons. cbn [concat]. f_equal; [|apply (IH (g ∘ S))].
  unfold get_edge_ids. by rewrite Hn.
Qed.

Lemma edge_events_same_ids (l l' : list Tria) :
  Forall2 (λ T T', eid T = eid T' ∧ node_ids T = node_ids T') l l' →
  edge_events l = edge_events l'.
Proof. apply (edge_events_same_ids_gen id). Qed.

Lemma occ_app k evs1 evs2 : occ k (evs1 ++ evs2) = occ k evs1 ++ occ k evs2.
Proof. unfold occ. by rewrite filter_app, fmap_app. Qed.

Lemma occ_tagged_all k (i : nat) (ks : list EdgeKey) :
  Forall (λ j, j = i) (occ k ((λ k', (k', i)) <$> ks)).
Proof.
  induction ks as [|k' ks IH]; csimpl; [constructor|].
  destruct (decide (k' = k)) as [->|Hne].
  - rewrite occ_cons_eq. by constructor.
  - by rewrite occ_cons_ne.
Qed.

Lemma constant_sorted (i : nat) (l : list nat) :
  Forall (λ j, j = i) l → StronglySorted le l.
Proof.
  induction 1 as [|j l -> Hl IH]; constructor; [done|].
  eapply Forall_impl; [done|]. simpl. lia.
Qed.

(** Triangles are met in list order, so the triangles recorded for a key
    come out in non-decreasing position. *)
Lemma occ_edge_events_sorted_gen (g : nat → nat) k trias :
  (∀ j j', j ≤ j' → g j ≤ g j') →
  let evs :=
    concat (imap (λ j tria, (λ k', (k', g j)) <$> get_edge_ids tria) trias) in
  StronglySorted le (occ k evs) ∧ Forall (λ i, g 0 ≤ i) (occ k evs).
Proof.
  revert g. induction trias as [|t trias IH]; intros g Hg; simpl.
  - split; constructor.
  - destruct (IH (g ∘ S)) as [IH1 IH2]; [intros j j' ?; apply Hg; lia|].
    rewrite occ_app. pose proof (occ_tagged_all k (g 0) (get_edge_ids t)) as Hc.
    split.
    + apply StronglySorted_app. split_and!; [|by eapply constant_sorted|done].
      intros i1 i2 Hi1 Hi2. rewrite Forall_forall in Hc, IH2.
      rewrite (Hc _ Hi1). etrans; [|by apply IH2]. apply Hg. simpl. lia.
    + apply Forall_app. split.
      * eapply Forall_impl; [done|]. simpl. lia.
      * eapply Forall_impl; [done|]. simpl. intros i Hi.
        etrans; [|done]. apply Hg. lia.
Qed.

Lemma occ_edge_events_sorted k trias :
  StronglySorted le (occ k (edge_events trias)).
Proof. apply (occ_edge_events_sorted_gen id). simpl. lia. Qed.

(** ** Meshes returned by the readers *)

Section Claims.

Context {coord : Type} (zero : coord).
Implicit Types (nodes : gmap Z (@Node coord)) (mesh : @Mesh coord).

Lemma returned_mesh_built mesh :
  returned_mesh zero mesh →
  ∃ nodes trias, fresh_input nodes trias ∧ build_adjacency nodes trias = Ok mesh.
Proof.
  intros [[bdf H]|(points & simplices & H)].
  - by eapply read_mesh_fresh.
  - by eapply read_delaunay_fresh.
Qed.

(** The triangles of a built mesh are the input triangles with their edge
    list filled in. *)
Lemma built_elements_lookup nodes trias mesh i T :
  fresh_input nodes trias → build_adjacency nodes trias = Ok mesh →
  mesh_elements mesh !! i = Some T →
  ∃ T0, trias !! i = Some T0 ∧ eid T = eid T0 ∧ node_ids T = node_ids T0 ∧
    tria_edges T
    = (filter (λ ev, ev.2 = i)
         (flatten (group_events [] (edge_events trias)))).*1.
Proof.
  intros [_ Hfresh] (_ & Hel & _)%build_adjacency_Ok. rewrite Hel.
  rewrite attach_events_lookup. destruct (trias !! i) as [T0|] eqn:HT0; [|done].
  simpl. intros [= <-]. exists T0. split_and!; [done..|]. simpl.
  rewrite Forall_forall in Hfresh. rewrite (Hfresh T0); [done|].
  by eapply list_elem_of_lookup_2.
Qed.

Lemma built_edge_events nodes trias mesh :
  build_adjacency nodes trias = Ok mesh →
  edge_events (mesh_elements mesh) = edge_events trias.
Proof.
  intros (_ & Hel & _)%build_adjacency_Ok. rewrite Hel.
  apply edge_events_same_ids, attach_same_ids.
Qed.

Lemma built_elements_of_input nodes trias mesh i T0 :
  build_adjacency nodes trias = Ok mesh → trias !! i = Some T0 →
  ∃ T, mesh_elements mesh !! i = Some T ∧ eid T = eid T0 ∧
    node_ids T = node_ids T0.
Proof.
  intros (_ & Hel & _)%build_adjacency_Ok HT0. rewrite Hel.
  rewrite attach_events_lookup, HT0. simpl. eauto.
Qed.

Lemma get_edge_ids_same T T' :
  node_ids T = node_ids T' → get_edge_ids T = get_edge_ids T'.
Proof. unfold get_edge_ids. by intros ->. Qed.

Lemma node_id_list_same T T' :
  node_ids T = node_ids T' → node_id_list T = node_id_list T'.
Proof. unfold node_id_list. by intros ->. Qed.

Lemma built_edges_lookup nodes trias mesh k e :
  build_adjacency nodes trias = Ok mesh →
  (k, e) ∈ mesh_edges mesh ↔
    e = mkEdge k.1 k.2 (occ k (edge_events trias)) ∧
    occ k (edge_events trias) ≠ [].
Proof.
  intros (Hed & _)%build_adjacency_Ok. rewrite Hed, list_elem_of_fmap. split.
  - intros ([k' ts] & [= -> ->] & [-> Hne]%elem_of_group). done.
  - intros [-> Hne]. exists (k, occ k (edge_events trias)).
    split; [done|]. by apply elem_of_group.
Qed.

Lemma built_edges_NoDup nodes trias mesh :
  build_adjacency nodes trias = Ok mesh → NoDup (mesh_edges mesh).*1.
Proof.
  intros (Hed & _)%build_adjacency_Ok. rewrite Hed, edge_of_keys.
  apply group_events_NoDup. constructor.
Qed.

Lemma built_edges_keys nodes trias mesh k :
  build_adjacency nodes trias = Ok mesh →
  k ∈ (mesh_edges mesh).*1 ↔
    ∃ i T, mesh_elements mesh !! i = Some T ∧ k ∈ get_edge_ids T.
Proof.
  intros Hb. rewrite <-elem_of_edge_events_keys, (built_edge_events _ _ _ Hb).
  apply build_adjacency_Ok in Hb as (Hed & _).
  by rewrite Hed, edge_of_keys, elem_of_group_keys.
Qed.

Lemma elem_of_flatten_group k i evs :
  (k, i) ∈ flatten (group_events [] evs) ↔ (k, i) ∈ evs.
Proof. by rewrite flatten_group_events. Qed.

(** C8: for every edge of the returned mesh, the supporting-triangle list
    is the sequence of triangles that the accumulation pass (lines 44-46)
    met with that edge key, in the order the pass met them: it lists exactly
    the triangles that have the key, by non-decreasing position in the
    triangle list. *)
Theorem edge_trias_processing_order mesh k e :
  returned_mesh zero mesh → (k, e) ∈ mesh_edges mesh →
  edge_trias e = occ k (edge_events (mesh_elements mesh)) ∧
  (∀ i, i ∈ edge_trias e ↔
     ∃ T, mesh_elements mesh !! i = Some T ∧ k ∈ get_edge_ids T) ∧
  StronglySorted le (edge_trias e).
Proof.
  intros (nodes & trias & _ & Hb)%returned_mesh_built Hin.
  apply (built_edges_lookup _ _ _ _ _ Hb) in Hin as [-> _]. simpl.
  rewrite <-(built_edge_events _ _ _ Hb). split_and!; [done| |].
  - intros i. by rewrite elem_of_occ, elem_of_edge_events.
  - apply occ_edge_events_sorted.
Qed.

Lemma built_triangle_edges_linked nodes trias mesh i T k :
  fresh_input nodes trias → build_adjacency nodes trias = Ok mesh →
  mesh_elements mesh !! i = Some T →
  k ∈ get_edge_ids T →
  ∃ e N1 N2,
    dict_get k (mesh_edges mesh) = Some e ∧
    n1 e = k.1 ∧ n2 e = k.2 ∧ i ∈ edge_trias e ∧
    mesh_nodes mesh !! k.1 = Some N1 ∧ k ∈ node_edges N1 ∧
    mesh_nodes mesh !! k.2 = Some N2 ∧ k ∈ node_edges N2.
Proof.
  intros Hfresh Hb HT Hk.
  assert ((k, i) ∈ edge_events trias) as Hev.
  { rewrite <-(built_edge_events _ _ _ Hb). apply elem_of_edge_events. eauto. }
  assert (k ∈ (mesh_edges mesh).*1) as Hkeys.
  { apply (built_edges_keys _ _ _ _ Hb). eauto. }
  pose proof (built_edges_NoDup _ _ _ Hb) as Hnd.
  pose proof Hb as (Hed & Hel & Hnodes & Hpresent)%build_adjacency_Ok.
  assert (is_Some (nodes !! k.1) ∧ is_Some (nodes !! k.2)) as [[M1 HM1] [M2 HM2]].
  { destruct (built_elements_lookup _ _ _ _ _ Hfresh Hb HT)
      as (T0 & HT0 & _ & Hn & _).
    rewrite (get_edge_ids_same _ _ Hn) in Hk.
    destruct (get_edge_ids_endpoints T0 k Hk) as (H1 & H2 & _).
    split; eapply Hpresent; eauto using list_elem_of_lookup_2. }
  exists (mkEdge k.1 k.2 (occ k (edge_events trias))).
  eexists _, _. rewrite !Hnodes, HM1, HM2. simpl.
  split_and!; try done.
  - apply elem_of_dict_get; [done|]. apply (built_edges_lookup _ _ _ _ _ Hb).
    split; [done|]. intros Hnil. apply elem_of_occ in Hev.
    rewrite Hnil in Hev. by apply elem_of_nil in Hev.
  - by apply elem_of_occ.
  - simpl. apply elem_of_union_l, elem_of_list_to_set, list_elem_of_filter.
    rewrite Hed, edge_of_keys in Hkeys. auto.
  - simpl. apply elem_of_union_l, elem_of_list_to_set, list_elem_of_filter.
    rewrite Hed, edge_of_keys in Hkeys. auto.
Qed.

(** C2: for every triangle of the returned mesh and each of its three edge
    keys, the edge mapping holds an edge under that key, the triangle is
    among that edge's supporting triangles, and both endpoint nodes have the
    edge in their incident-edge set. *)
Theorem triangle_edges_linked mesh i T k :
  returned_mesh zero mesh → mesh_elements mesh !! i = Some T →
  k ∈ get_edge_ids T →
  ∃ e N1 N2,
    dict_get k (mesh_edges mesh) = Some e ∧
    n1 e = k.1 ∧ n2 e = k.2 ∧ i ∈ edge_trias e ∧
    mesh_nodes mesh !! k.1 = Some N1 ∧ k ∈ node_edges N1 ∧
    mesh_nodes mesh !! k.2 = Some N2 ∧ k ∈ node_edges N2.
Proof.
  intros (nodes & trias & Hfresh & Hb)%returned_mesh_built.
  by eapply built_triangle_edges_linked.
Qed.

Lemma built_edge_trias_linked nodes trias mesh k e :
  fresh_input nodes trias → build_adjacency nodes trias = Ok mesh →
  (k, e) ∈ mesh_edges mesh →
  edge_trias e ≠ [] ∧
  ∀ i, i ∈ edge_trias e →
    ∃ T, mesh_elements mesh !! i = Some T ∧ k ∈ tria_edges T.
Proof.
  intros Hfresh Hb [-> Hne]%(built_edges_lookup _ _ _ _ _ Hb). simpl.
  split; [done|]. intros i Hi%elem_of_occ.
  pose proof Hi as (T0 & HT0 & Hk)%elem_of_edge_events.
  destruct (built_elements_of_input _ _ _ _ _ Hb HT0) as (T & HT & _).
  exists T. split; [done|].
  destruct (built_elements_lookup _ _ _ _ _ Hfresh Hb HT) as (? & _ & _ & _ & ->).
  apply list_elem_of_fmap. exists (k, i). split; [done|].
  apply list_elem_of_filter. split; [done|]. by apply elem_of_flatten_group.
Qed.

Lemma fst_tagged (i : nat) (ks : list EdgeKey) :
  ((λ k, (k, i)) <$> ks).*1 = ks.
Proof. rewrite <-list_fmap_compose. apply list_fmap_id. Qed.

Lemma built_tria_edges nodes trias mesh i T :
  fresh_input nodes trias → build_adjacency nodes trias = Ok mesh →
  mesh_elements mesh !! i = Some T →
  tria_edges T ≡ₚ get_edge_ids T ∧
  tria_edges T
  = (mesh_edges mesh).*1 ≫=
      (λ k, replicate (length (filter (λ k', k' = k) (get_edge_ids T))) k).
Proof.
  intros Hfresh Hb HT.
  destruct (built_elements_lookup _ _ _ _ _ Hfresh Hb HT)
    as (T0 & HT0 & _ & Hn & ->).
  rewrite (get_edge_ids_same _ _ Hn).
  pose proof (filter_edge_events i trias) as Hf. rewrite HT0 in Hf. simpl in Hf.
  split.
  - rewrite flatten_group_events. simpl. by rewrite Hf, fst_tagged.
  - rewrite filter_snd_flatten.
    apply build_adjacency_Ok in Hb as (-> & _). rewrite edge_of_keys.
    apply bind_replicate_ext. intros k ts [-> _]%elem_of_group.
    by rewrite length_filter_occ, Hf, length_filter_tagged.
Qed.

(** C1 (amended): every triangle of the returned mesh has exactly 3 entries
    in its edge list; they are the edges of its three local node pairs
    (0-1, 1-2, 2-0), each stored in the edge mapping under its key with that
    pair as endpoints; but they are listed in the order of the edge mapping,
    i.e. in edge-creation order, not in the local enumeration order. *)
Theorem triangle_edges_creation_order mesh i T :
  returned_mesh zero mesh → mesh_elements mesh !! i = Some T →
  length (tria_edges T) = 3 ∧
  tria_edges T ≡ₚ get_edge_ids T ∧
  tria_edges T
  = (mesh_edges mesh).*1 ≫=
      (λ k, replicate (length (filter (λ k', k' = k) (get_edge_ids T))) k) ∧
  ∀ k, k ∈ tria_edges T →
    ∃ e, dict_get k (mesh_edges mesh) = Some e ∧ (n1 e, n2 e) = k.
Proof.
  intros (nodes & trias & Hfresh & Hb)%returned_mesh_built HT.
  destruct (built_tria_edges _ _ _ _ _ Hfresh Hb HT) as [Hperm Horder].
  split_and!; [|done..|].
  - by rewrite Hperm, length_get_edge_ids.
  - intros k Hk. rewrite Hperm in Hk.
    destruct (built_triangle_edges_linked _ _ _ _ _ _ Hfresh Hb HT Hk)
      as (e & _ & _ & He & H1 & H2 & _).
    exists e. split; [done|]. rewrite H1, H2. by destruct k.
Qed.

Lemma read_mesh_total bdf :
  Forall (λ elem, is_CTRIA3 elem = true) (bdf_elements bdf) →
  (∀ eid a b c, CTRIA3 eid a b c ∈ bdf_elements bdf →
     is_Some (bdf_nodes bdf !! a) ∧ is_Some (bdf_nodes bdf !! b) ∧
     is_Some (bdf_nodes bdf !! c)) →
  ∃ mesh, read_mesh bdf = Ok mesh.
Proof.
  intros Hall Hnodes.
  assert (∃ trias, as_tria <$> bdf_elements bdf = Some <$> trias) as [trias Hts].
  { clear Hnodes. induction Hall as [|elem els Helem _ [trias IH]]; [by exists []|].
    destruct elem; try done. eexists (_ :: trias). csimpl. by rewrite IH. }
  destruct (build_adjacency_total (tag_node <$> bdf_nodes bdf) trias)
    as [mesh Hb]; [|exists mesh; apply read_mesh_Ok; eauto].
  intros T m [j HT]%list_elem_of_lookup Hm.
  apply (f_equal (λ l, l !! j)) in Hts.
  rewrite !list_lookup_fmap, HT in Hts.
  destruct (bdf_elements bdf !! j) as [elem|] eqn:Hel; [|done].
  apply list_elem_of_lookup_2 in Hel.
  destruct elem as [eid a b c| |]; simplify_eq/=.
  destruct (Hnodes _ _ _ _ Hel) as (Ha & Hb & Hc).
  rewrite lookup_fmap, fmap_is_Some. unfold node_id_list in Hm. simpl in Hm.
  rewrite !elem_of_cons, elem_of_nil in Hm. naive_solver.
Qed.

(** C3: every edge of the returned mesh has a non-empty list of supporting
    triangles, each of which has the edge in its own edge list; neither
    reader looks at how many triangles share an edge: once the parser has
    returned a deck, [read_mesh] succeeds whenever all elements are
    triangles over known nodes, [read_delaunay] succeeds whenever all points
    have 2 or 3 coordinates and all simplices are index triples into the
    points, and an edge with three supporting triangles is returned as it
    is. *)
Theorem edges_supported :
  (∀ mesh k e, returned_mesh zero mesh → (k, e) ∈ mesh_edges mesh →
     edge_trias e ≠ [] ∧
     ∀ i, i ∈ edge_trias e →
       ∃ T, mesh_elements mesh !! i = Some T ∧ k ∈ tria_edges T) ∧
  (∀ (read_bdf : string → result BDF) filepath bdf,
     read_bdf filepath = Ok bdf →
     Forall (λ elem, is_CTRIA3 elem = true) (bdf_elements bdf) →
     (∀ eid a b c, CTRIA3 eid a b c ∈ bdf_elements bdf →
        is_Some (bdf_nodes bdf !! a) ∧ is_Some (bdf_nodes bdf !! b) ∧
        is_Some (bdf_nodes bdf !! c)) →
     ∃ mesh, read_mesh_filepath read_bdf filepath = Ok mesh) ∧
  (∀ points simplices,
     Forall good_point points →
     Forall (valid_simplex (length points)) simplices →
     ∃ mesh, read_delaunay zero points simplices = Ok mesh) ∧
  (∃ mesh e, read_mesh (fan_bdf zero) = Ok mesh ∧
     dict_get (1, 2)%Z (mesh_edges mesh) = Some e ∧ edge_trias e = [0; 1; 2]).
Proof.
  split_and!.
  - intros mesh k e (nodes & trias & Hfresh & Hb)%returned_mesh_built.
    by eapply built_edge_trias_linked.
  - intros read_bdf filepath bdf Hbdf Hall Hnodes.
    destruct (read_mesh_total bdf Hall Hnodes) as [mesh Hrm].
    exists mesh. apply read_mesh_filepath_Ok. eauto.
  - intros points simplices Hgood Hvalid. by apply read_delaunay_total.
  - eexists _, _. split; [vm_compute; reflexivity|]. split; reflexivity.
Qed.

Lemma built_edges_sorted nodes trias mesh k :
  build_adjacency nodes trias = Ok mesh →
  k ∈ (mesh_edges mesh).*1 → (k.1 ≤ k.2)%Z.
Proof.
  intros Hb (i & T & _ & Hk)%(built_edges_keys _ _ _ _ Hb).
  by apply get_edge_ids_endpoints in Hk as (_ & _ & ?).
Qed.

(** C5: two distinct entries of the returned edge mapping never have the
    same node pair, in either order, as key or as the endpoints of their
    [Edge] records. *)
Theorem edge_keys_unique mesh i j k1 e1 k2 e2 :
  returned_mesh zero mesh →
  mesh_edges mesh !! i = Some (k1, e1) →
  mesh_edges mesh !! j = Some (k2, e2) →
  i ≠ j →
  ¬ same_edge k1 k2 ∧ ¬ same_edge (n1 e1, n2 e1) (n1 e2, n2 e2).
Proof.
  intros (nodes & trias & _ & Hb)%returned_mesh_built H1 H2 Hij.
  assert (∀ i k e, mesh_edges mesh !! i = Some (k, e) → (n1 e, n2 e) = k) as He.
  { intros i' k e Hl%list_elem_of_lookup_2.
    apply (built_edges_lookup _ _ _ _ _ Hb) in Hl as [-> _]. by destruct k. }
  rewrite (He _ _ _ H1), (He _ _ _ H2).
  assert (¬ same_edge k1 k2); [|done].
  assert (k1 ≠ k2) as Hne.
  { intros <-. apply Hij.
    eapply (NoDup_lookup _ _ _ k1 (built_edges_NoDup _ _ _ Hb));
      rewrite list_lookup_fmap; [by rewrite H1|by rewrite H2]. }
  intros [?| ->]; [done|].
  assert ((k2.2, k2.1).1 ≤ (k2.2, k2.1).2)%Z as Hs1.
  { eapply built_edges_sorted; [done|]. apply list_elem_of_fmap.
    exists ((k2.2, k2.1), e1). eauto using list_elem_of_lookup_2. }
  assert (k2.1 ≤ k2.2)%Z as Hs2.
  { eapply built_edges_sorted; [done|]. apply list_elem_of_fmap.
    exists (k2, e2). eauto using list_elem_of_lookup_2. }
  simpl in Hs1. apply Hne. destruct k2 as [a b]. simpl in *. f_equal; lia.
Qed.

Lemma read_delaunay_nodes_lookup points simplices mesh n :
  read_delaunay zero points simplices = Ok mesh →
  ∃ S E,
    mesh_nodes mesh !! n
    = if decide (1 ≤ n ≤ Z.of_nat (length points))%Z
      then (λ pt, GRID n (embed_point zero pt) S E ∅ None)
             <$> points !! Z.to_nat (n - 1)
      else None.
Proof.
  intros (_ & trias & _ & Hb)%read_delaunay_Ok.
  apply build_adjacency_Ok in Hb as (_ & _ & Hnodes & _).
  eexists _, _. rewrite Hnodes, point_nodes_lookup. case_decide; [|done].
  destruct (points !! _); [|done]. simpl. unfold extend_node. simpl.
  reflexivity.
Qed.

(** C6: in the returned mesh, the incident-triangle set of the node
    registered under the id [n] is exactly the set of ids of the triangles
    whose node list contains [n], and its incident-edge set is exactly the
    set of edges of the mapping whose key contains [n]. The node carries the
    [nid] of the deck's node registered under [n] ([read_mesh]), which is
    [n] itself for [read_delaunay]. *)
Theorem node_incidence_exact mesh n N :
  returned_mesh zero mesh → mesh_nodes mesh !! n = Some N →
  (∀ t, t ∈ node_trias N ↔
     ∃ i T, mesh_elements mesh !! i = Some T ∧ eid T = t ∧
       n ∈ node_id_list T) ∧
  (∀ k, k ∈ node_edges N ↔
     k ∈ (mesh_edges mesh).*1 ∧ (k.1 = n ∨ k.2 = n)) ∧
  (∀ bdf, read_mesh bdf = Ok mesh →
     ∃ N0, bdf_nodes bdf !! n = Some N0 ∧ nid N = nid N0) ∧
  (∀ points simplices,
     read_delaunay zero points simplices = Ok mesh → nid N = n).
Proof.
  intros Hret HN.
  assert ((∀ bdf, read_mesh bdf = Ok mesh →
             ∃ N0, bdf_nodes bdf !! n = Some N0 ∧ nid N = nid N0) ∧
          (∀ points simplices,
             read_delaunay zero points simplices = Ok mesh → nid N = n))
    as Hid.
  { split.
    - intros bdf (trias & _ & Hb)%read_mesh_Ok.
      apply build_adjacency_Ok in Hb as (_ & _ & Hnodes & _).
      rewrite Hnodes, lookup_fmap in HN.
      destruct (bdf_nodes bdf !! n) as [N0|]; [|done]. simpl in HN.
      injection HN as <-. eauto.
    - intros points simplices Hrd.
      destruct (read_delaunay_nodes_lookup _ _ _ n Hrd) as (S & E & Hl).
      rewrite Hl in HN. case_decide; [|done].
      destruct (points !! _); [|done]. simpl in HN. by injection HN as <-. }
  cut ((∀ t, t ∈ node_trias N ↔
          ∃ i T, mesh_elements mesh !! i = Some T ∧ eid T = t ∧
            n ∈ node_id_list T) ∧
       (∀ k, k ∈ node_edges N ↔
          k ∈ (mesh_edges mesh).*1 ∧ (k.1 = n ∨ k.2 = n))); [naive_solver|].
  clear Hid. revert Hret HN.
  intros (nodes & trias & Hfresh & Hb)%returned_mesh_built HN.
  pose proof Hb as (Hed & Hel & Hnodes & _)%build_adjacency_Ok.
  rewrite Hnodes in HN. destruct (nodes !! n) as [N0|] eqn:HN0; [|done].
  injection HN as <-. destruct Hfresh as [Hfresh _].
  destruct (Hfresh _ _ HN0) as [Ht He]. simpl. rewrite Ht, He. split.
  - intros t. rewrite elem_of_union, elem_of_list_to_set. unfold eids_at.
    rewrite list_elem_of_fmap. setoid_rewrite list_elem_of_filter. split.
    + intros [(T0 & -> & Hn & [i HT0]%list_elem_of_lookup)|Hemp]; [|set_solver].
      destruct (built_elements_of_input _ _ _ _ _ Hb HT0) as (T & HT & Hid & Hns).
      exists i, T. by rewrite Hid, (node_id_list_same _ _ Hns).
    + intros (i & T & HT & <- & Hn). left.
      rewrite Hel, attach_events_lookup in HT.
      destruct (trias !! i) as [T0|] eqn:HT0; [|done]. simpl in HT.
      injection HT as <-. exists T0. simpl.
      split_and!; [done..|]. by eapply list_elem_of_lookup_2.
  - intros k. rewrite elem_of_union, elem_of_list_to_set. unfold edges_at.
    rewrite list_elem_of_filter, Hed, edge_of_keys. set_solver.
Qed.

Lemma first_unsupported (elements : list Element) elem :
  elem ∈ elements → is_CTRIA3 elem = false →
  ∃ pre x rest, elements = pre ++ x :: rest ∧
    Forall (λ y, is_CTRIA3 y = true) pre ∧ is_CTRIA3 x = false.
Proof.
  induction elements as [|y elements IH]; intros Hin Hel.
  - by apply elem_of_nil in Hin.
  - destruct (is_CTRIA3 y) eqn:Hy.
    + apply elem_of_cons in Hin as [->|Hin]; [congruence|].
      destruct (IH Hin Hel) as (pre & x & rest & -> & Hpre & Hx).
      exists (y :: pre), x, rest. split_and!; [done| |done]. by constructor.
    + exists [], y, elements. by split_and!.
Qed.

Lemma read_mesh_Raise_collect (bdf : @BDF coord) e :
  collect_trias (bdf_elements bdf) = Raise e → read_mesh bdf = Raise e.
Proof. unfold read_mesh. by intros ->. Qed.

(** C4: when some element is not a [CTRIA3], [read_mesh] raises
    [NotImplementedError] (for the first such element) and returns no mesh;
    when all elements are [CTRIA3], it never raises [NotImplementedError]. *)
Theorem read_mesh_unsupported_element (bdf : @BDF coord) :
  (∀ elem, elem ∈ bdf_elements bdf → is_CTRIA3 elem = false →
     (∃ kind, read_mesh bdf = Raise (NotImplementedError kind)) ∧
     ∀ mesh, read_mesh bdf ≠ Ok mesh) ∧
  (∀ pre elem rest, bdf_elements bdf = pre ++ elem :: rest →
     Forall (λ y, is_CTRIA3 y = true) pre → is_CTRIA3 elem = false →
     read_mesh bdf = Raise (NotImplementedError (type_name elem))) ∧
  (Forall (λ elem, is_CTRIA3 elem = true) (bdf_elements bdf) →
     ∀ kind, read_mesh bdf ≠ Raise (NotImplementedError kind)).
Proof.
  assert (∀ pre elem rest, bdf_elements bdf = pre ++ elem :: rest →
     Forall (λ y, is_CTRIA3 y = true) pre → is_CTRIA3 elem = false →
     read_mesh bdf = Raise (NotImplementedError (type_name elem))) as Hfirst.
  { intros pre elem rest Heq Hpre Hel. apply read_mesh_Raise_collect.
    rewrite collect_trias_unfold. apply collect_steps_Raise. eauto 10. }
  split_and!; [|done|].
  - intros elem Hin Hel.
    destruct (first_unsupported _ _ Hin Hel) as (pre & x & rest & Heq & Hpre & Hx).
    rewrite (Hfirst _ _ _ Heq Hpre Hx). split; [eauto|done].
  - intros Hall kind Hr. unfold read_mesh in Hr.
    destruct (collect_trias (bdf_elements bdf)) as [trias|e] eqn:Hc; simpl in Hr.
    + apply build_adjacency_Raise in Hr as [n Hn]. done.
    + rewrite collect_trias_unfold in Hc.
      apply collect_steps_Raise in Hc as (pre & x & rest & Heq & _ & Hx & _).
      rewrite Forall_forall in Hall. rewrite Hall in Hx; [done|].
      rewrite Heq. set_solver.
Qed.

Lemma embed_point_length (pt : list coord) :
  embed_point zero pt = if decide (length pt = 2) then pt ++ [zero] else pt.
Proof. by destruct pt as [|x [|y [|z pt]]]. Qed.

(** C7: [read_delaunay] makes one node per point, registered under and
    carrying the ids 1, 2, ... in input order, a 2-coordinate point getting
    [zero] as third coordinate; and one triangle per simplex, with the ids
    1, 2, ... in input order, over the nodes the simplex's indices select. *)
Theorem read_delaunay_numbering points simplices mesh :
  read_delaunay zero points simplices = Ok mesh →
  size (mesh_nodes mesh) = length points ∧
  (∀ n, is_Some (mesh_nodes mesh !! n) ↔
     (1 ≤ n ≤ Z.of_nat (length points))%Z) ∧
  (∀ j pt, points !! j = Some pt →
     ∃ N, mesh_nodes mesh !! (Z.of_nat j + 1)%Z = Some N ∧
       nid N = (Z.of_nat j + 1)%Z ∧ xyz N = embed_point zero pt ∧
       ∀ x y, pt = [x; y] → xyz N = [x; y; zero]) ∧
  length (mesh_elements mesh) = length simplices ∧
  (∀ j T, mesh_elements mesh !! j = Some T →
     eid T = (Z.of_nat j + 1)%Z ∧
     ∃ i1 i2 i3, simplices !! j = Some [i1; i2; i3] ∧
       node_ids T = (nid_at (length points) i1, nid_at (length points) i2,
                     nid_at (length points) i3)).
Proof.
  intros Hrd.
  assert (∀ n, is_Some (mesh_nodes mesh !! n) ↔
               (1 ≤ n ≤ Z.of_nat (length points))%Z) as Hdom.
  { intros n. destruct (read_delaunay_nodes_lookup _ _ _ n Hrd) as (S & E & ->).
    case_decide as Hn; [|split; [by intros [??]|done]].
    rewrite fmap_is_Some. split; [done|]. intros _.
    apply lookup_lt_is_Some_2. lia. }
  split_and!; [|done| | |].
  - rewrite <-size_dom.
    replace (dom (mesh_nodes mesh))
      with (list_to_set (C := gset Z)
              ((λ j, Z.of_nat j + 1)%Z <$> seq 0 (length points))).
    + rewrite size_list_to_set, length_fmap, length_seq; [done|].
      apply NoDup_fmap_2; [|apply NoDup_seq]. intros j1 j2. lia.
    + apply set_eq. intros n.
      rewrite elem_of_list_to_set, elem_of_dom, Hdom, list_elem_of_fmap.
      setoid_rewrite elem_of_seq. split.
      * intros (j & -> & Hj). lia.
      * intros Hn. exists (Z.to_nat (n - 1)). lia.
  - intros j pt Hpt.
    destruct (read_delaunay_nodes_lookup _ _ _ (Z.of_nat j + 1) Hrd)
      as (S & E & ->).
    rewrite decide_True by (apply lookup_lt_Some in Hpt; lia).
    replace (Z.to_nat (Z.of_nat j + 1 - 1)) with j by lia. rewrite Hpt. simpl.
    eexists. split; [done|]. simpl. split_and!; [done..|]. by intros x y ->.
  - apply read_delaunay_Ok in Hrd as (_ & trias & Hts & Hb).
    apply build_adjacency_Ok in Hb as (_ & -> & _).
    rewrite attach_events_length. apply (f_equal length) in Hts.
    by rewrite length_imap, length_fmap in Hts.
  - intros j T HT. apply read_delaunay_Ok in Hrd as (_ & trias & Hts & Hb).
    pose proof Hb as (_ & Hel & _)%build_adjacency_Ok.
    rewrite Hel, attach_events_lookup in HT.
    destruct (trias !! j) as [T0|] eqn:HT0; [|done]. simpl in HT.
    injection HT as <-. simpl.
    destruct (delaunay_trias_lookup _ _ _ _ _ _ Hts HT0)
      as (i1 & i2 & i3 & Hs & _ & ->). simpl. eauto 10.
Qed.

(** C10 (amended): [read_delaunay] pads a point exactly when it has 2
    coordinates and stores a 3-coordinate point unchanged; it does not test
    any other length itself, but the node constructor rejects such a point:
    a mesh is returned exactly when every point has 2 or 3 coordinates and
    every simplex is a triple of indices into the points, and any point with
    another number of coordinates makes the call raise [AssertionError]. *)
Theorem read_delaunay_point_dimension points simplices :
  ((∃ mesh, read_delaunay zero points simplices = Ok mesh) ↔
     Forall good_point points ∧
     Forall (valid_simplex (length points)) simplices) ∧
  (∀ mesh j pt, read_delaunay zero points simplices = Ok mesh →
     points !! j = Some pt →
     ∃ N, mesh_nodes mesh !! (Z.of_nat j + 1)%Z = Some N ∧
       xyz N = if decide (length pt = 2) then pt ++ [zero] else pt) ∧
  (∀ pt, pt ∈ points → ¬ good_point pt →
     read_delaunay zero points simplices = Raise AssertionError).
Proof.
  split_and!; [apply read_delaunay_total| |apply read_delaunay_bad_point].
  intros mesh j pt Hrd Hpt.
  destruct (read_delaunay_nodes_lookup _ _ _ (Z.of_nat j + 1) Hrd)
    as (S & E & ->).
  rewrite decide_True by (apply lookup_lt_Some in Hpt; lia).
  replace (Z.to_nat (Z.of_nat j + 1 - 1)) with j by lia. rewrite Hpt. simpl.
  eexists. split; [done|]. simpl. apply embed_point_length.
Qed.

Lemma get_edge_ids_NoDup T :
  NoDup (node_id_list T) → NoDup (get_edge_ids T).
Proof.
  unfold node_id_list, get_edge_ids. destruct (node_ids T) as [[a b] c].
  rewrite !NoDup_cons, !not_elem_of_cons, !elem_of_nil.
  intros ((Hab & Hac & _) & (Hbc & _) & _).
  unfold edge_key.
  split_and!; try apply NoDup_nil_2; try (by intros []); intros [= ??]; lia.
Qed.

Lemma occ_tagged_NoDup k (i : nat) (ks : list EdgeKey) :
  NoDup ks →
  occ k ((λ k', (k', i)) <$> ks) = if decide (k ∈ ks) then [i] else [].
Proof.
  induction 1 as [|k' ks Hk' _ IH]; csimpl; [done|].
  destruct (decide (k' = k)) as [->|Hne].
  - rewrite occ_cons_eq, IH, decide_False, decide_True by set_solver. done.
  - rewrite occ_cons_ne, IH by done. destruct (decide (k ∈ ks)).
    + rewrite decide_True by set_solver. done.
    + rewrite decide_False by set_solver. done.
Qed.

Lemma edge_events_two T1 T2 :
  edge_events [T1; T2]
  = ((λ k, (k, 0)) <$> get_edge_ids T1) ++ ((λ k, (k, 1)) <$> get_edge_ids T2).
Proof. unfold edge_events. simpl. by rewrite (right_id_L [] (++)). Qed.

(** The adjacency built over two triangles with three distinct nodes each
    and exactly one edge key [k] in common. *)
Lemma built_two_triangles nodes T1 T2 mesh k :
  build_adjacency nodes [T1; T2] = Ok mesh →
  NoDup (node_id_list T1) → NoDup (node_id_list T2) →
  (∀ k', k' ∈ get_edge_ids T1 ∧ k' ∈ get_edge_ids T2 ↔ k' = k) →
  node_ids <$> mesh_elements mesh = [node_ids T1; node_ids T2] ∧
  length (mesh_edges mesh) = 5 ∧
  (∃ e, dict_get k (mesh_edges mesh) = Some e ∧ edge_trias e = [0; 1]) ∧
  (∀ k' e, (k', e) ∈ mesh_edges mesh → k' ≠ k →
     length (edge_trias e) = 1).
Proof.
  intros Hb Hd1%get_edge_ids_NoDup Hd2%get_edge_ids_NoDup Hshared.
  assert (∀ k', occ k' (edge_events [T1; T2])
                = (if decide (k' ∈ get_edge_ids T1) then [0] else [])
                  ++ (if decide (k' ∈ get_edge_ids T2) then [1] else []))
    as Hocc.
  { intros k'. by rewrite edge_events_two, occ_app, !occ_tagged_NoDup. }
  destruct (proj2 (Hshared k) eq_refl) as [Hk1 Hk2].
  pose proof (built_edges_NoDup _ _ _ Hb) as Hnd.
  assert (∀ k', k' ∈ (mesh_edges mesh).*1 ↔
                k' ∈ get_edge_ids T1 ∨ k' ∈ get_edge_ids T2) as Hkeys.
  { intros k'. rewrite list_elem_of_fmap. split.
    - intros ([k0 e] & -> & [_ Hne]%(built_edges_lookup _ _ _ _ _ Hb)).
      simpl in *. rewrite Hocc in Hne.
      destruct (decide (k0 ∈ get_edge_ids T1)); [by left|].
      destruct (decide (k0 ∈ get_edge_ids T2)); [by right|done].
    - intros Hk'. exists (k', mkEdge k'.1 k'.2 (occ k' (edge_events [T1; T2]))).
      split; [done|]. apply (built_edges_lookup _ _ _ _ _ Hb).
      split; [done|]. rewrite Hocc.
      destruct (decide (k' ∈ get_edge_ids T1)); [done|].
      destruct (decide (k' ∈ get_edge_ids T2)); [done|]. naive_solver. }
  split_and!.
  - pose proof Hb as (_ & -> & _)%build_adjacency_Ok.
    pose proof (attach_same_ids
                  (flatten (group_events [] (edge_events [T1; T2]))) [T1; T2])
      as Hsame.
    apply Forall2_cons_inv_r in Hsame as (U1 & l1 & [_ H1] & Hsame & ->).
    apply Forall2_cons_inv_r in Hsame as (U2 & l2 & [_ H2] & Hsame & ->).
    apply Forall2_nil_inv_r in Hsame as ->. simpl. by rewrite H1, H2.
  - rewrite <-(length_fmap fst), <-(size_list_to_set (C := gset EdgeKey)) by done.
    replace (list_to_set (mesh_edges mesh).*1)
      with (list_to_set (C := gset EdgeKey) (get_edge_ids T1)
            ∪ list_to_set (get_edge_ids T2)).
    + rewrite size_union_alt.
      replace (list_to_set (get_edge_ids T2) ∖ list_to_set (get_edge_ids T1))
        with (list_to_set (C := gset EdgeKey) (get_edge_ids T2) ∖ {[k]}).
      * rewrite size_difference by set_solver.
        rewrite !size_list_to_set, !length_get_edge_ids, size_singleton by done.
        done.
      * apply set_eq. intros k'. rewrite !elem_of_difference,
          !elem_of_list_to_set, elem_of_singleton. specialize (Hshared k').
        naive_solver.
    + apply set_eq. intros k'.
      by rewrite elem_of_union, !elem_of_list_to_set, Hkeys.
  - exists (mkEdge k.1 k.2 [0; 1]). split; [|done].
    apply elem_of_dict_get; [done|]. apply (built_edges_lookup _ _ _ _ _ Hb).
    rewrite Hocc, !decide_True by done. done.
  - intros k' e [-> Hne]%(built_edges_lookup _ _ _ _ _ Hb) Hk'. simpl.
    rewrite Hocc in Hne |- *. specialize (Hshared k').
    destruct (decide (k' ∈ get_edge_ids T1)), (decide (k' ∈ get_edge_ids T2));
      naive_solver.
Qed.

(** C9: for an input of exactly two triangles, over the distinct nodes
    [a], [b], [c] and the distinct nodes [d], [e], [f], that have exactly one
    edge key [k] in common, each reader returns a mesh that holds these two
    triangles and whose edge mapping has 5 entries, the edge [k] having both
    triangles as its supporting triangles and every other edge exactly one:
    [read_mesh] for every deck the parser hands over with these two
    [CTRIA3] cards and their nodes, [read_delaunay] for every two simplices
    that select these nodes among points of 2 or 3 coordinates. *)
Theorem two_triangles_five_edges (a b c d e f : Z) (k : EdgeKey) :
  NoDup [a; b; c] → NoDup [d; e; f] →
  (∀ k', k' ∈ [edge_key a b; edge_key b c; edge_key c a] ∧
         k' ∈ [edge_key d e; edge_key e f; edge_key f d] ↔ k' = k) →
  (∀ (read_bdf : string → result BDF) filepath bdf e1 e2,
     read_bdf filepath = Ok bdf →
     bdf_elements bdf = [CTRIA3 e1 a b c; CTRIA3 e2 d e f] →
     (∀ n, n ∈ [a; b; c; d; e; f] → is_Some (bdf_nodes bdf !! n)) →
     ∃ mesh, read_mesh_filepath read_bdf filepath = Ok mesh ∧
       node_ids <$> mesh_elements mesh = [(a, b, c); (d, e, f)] ∧
       length (mesh_edges mesh) = 5 ∧
       (∃ ed, dict_get k (mesh_edges mesh) = Some ed ∧
          edge_trias ed = [0; 1]) ∧
       (∀ k' ed, (k', ed) ∈ mesh_edges mesh → k' ≠ k →
          length (edge_trias ed) = 1)) ∧
  (∀ points i1 i2 i3 j1 j2 j3,
     Forall good_point points →
     Forall (valid_index (length points)) [i1; i2; i3; j1; j2; j3] →
     nid_at (length points) <$> [i1; i2; i3; j1; j2; j3]
       = [a; b; c; d; e; f] →
     ∃ mesh,
       read_delaunay zero points [[i1; i2; i3]; [j1; j2; j3]] = Ok mesh ∧
       node_ids <$> mesh_elements mesh = [(a, b, c); (d, e, f)] ∧
       length (mesh_edges mesh) = 5 ∧
       (∃ ed, dict_get k (mesh_edges mesh) = Some ed ∧
          edge_trias ed = [0; 1]) ∧
       (∀ k' ed, (k', ed) ∈ mesh_edges mesh → k' ≠ k →
          length (edge_trias ed) = 1)).
Proof.
  intros Hd1 Hd2 Hshared. split.
  - intros read_bdf filepath bdf e1 e2 Hbdf Hel Hnodes.
    destruct (read_mesh_total bdf) as [mesh Hrm].
    { rewrite Hel. by repeat constructor. }
    { intros eid x y z. rewrite Hel, !elem_of_cons, elem_of_nil.
      intros [[= -> -> -> ->]|[[= -> -> -> ->]|[]]];
        split_and!; apply Hnodes; set_solver. }
    exists mesh. split; [apply read_mesh_filepath_Ok; eauto|].
    apply read_mesh_Ok in Hrm as (trias & Hts & Hb). rewrite Hel in Hts.
    destruct trias as [|T1 [|T2 [|]]]; simplify_eq/=.
    by apply (built_two_triangles _ _ _ _ _ Hb).
  - intros points i1 i2 i3 j1 j2 j3 Hgood Hidx Hids.
    apply Forall_cons in Hidx as [Hi1 Hidx].
    apply Forall_cons in Hidx as [Hi2 Hidx].
    apply Forall_cons in Hidx as [Hi3 Hidx].
    apply Forall_cons in Hidx as [Hj1 Hidx].
    apply Forall_cons in Hidx as [Hj2 Hidx].
    apply Forall_cons in Hidx as [Hj3 _].
    destruct (proj2 (read_delaunay_total zero points
                       [[i1; i2; i3]; [j1; j2; j3]])) as [mesh Hrd].
    { split; [done|]. repeat constructor; eexists _, _, _; eauto. }
    exists mesh. split; [done|].
    apply read_delaunay_Ok in Hrd as (_ & trias & Hts & Hb).
    pose proof (f_equal length Hts) as Hlen.
    rewrite length_imap, length_fmap in Hlen.
    destruct trias as [|T1 [|T2 [|]]]; try done.
    destruct (delaunay_trias_lookup _ _ _ _ 0 T1 Hts eq_refl)
      as (? & ? & ? & [= <- <- <-] & _ & ->).
    destruct (delaunay_trias_lookup _ _ _ _ 1 T2 Hts eq_refl)
      as (? & ? & ? & [= <- <- <-] & _ & ->).
    injection Hids as <- <- <- <- <- <-.
    by apply (built_two_triangles _ _ _ _ _ Hb).
Qed.

End Claims.

Example read_mesh_square : read_mesh square_bdf = Ok square_mesh.
Proof. vm_compute. reflexivity. Qed.

Example read_delaunay_square :
  read_delaunay 0%Z square_points square_simplices = Ok square_mesh.
Proof. vm_compute. reflexivity. Qed.

(** C1 fails as stated: the second triangle of the square, over the nodes
    (4, 3, 2), has the local edges (3,4), (2,3), (2,4) but gets its edge list
    in creation order: (2,3), made for the first triangle, comes first. *)
Lemma local_edge_order_counterexample :
  read_mesh square_bdf = Ok square_mesh ∧
  get_edge_ids <$> mesh_elements square_mesh
    = [[(1, 2); (2, 3); (1, 3)]; [(3, 4); (2, 3); (2, 4)]]%Z ∧
  tria_edges <$> mesh_elements square_mesh
    = [[(1, 2); (2, 3); (1, 3)]; [(2, 3); (3, 4); (2, 4)]]%Z ∧
  ¬ local_edge_order square_mesh.
Proof.
  split; [vm_compute; reflexivity|].
  split; [reflexivity|]. split; [reflexivity|].
  intros Hclaim. destruct (Hclaim 1 _ eq_refl) as [_ Hj].
  specialize (Hj 0). discriminate Hj.
Qed.

Lemma triangle_edges_creation_order_witness :
  let T := mkTria 2 (4, 3, 2)%Z [(2, 3); (3, 4); (2, 4)]%Z in
  length (tria_edges T) = 3 ∧
  tria_edges T ≡ₚ get_edge_ids T ∧
  tria_edges T
  = (mesh_edges square_mesh).*1 ≫=
      (λ k, replicate (length (filter (λ k', k' = k) (get_edge_ids T))) k) ∧
  ∀ k, k ∈ tria_edges T →
    ∃ e, dict_get k (mesh_edges square_mesh) = Some e ∧ (n1 e, n2 e) = k.
Proof.
  apply (triangle_edges_creation_order 0%Z square_mesh 1).
  - left. exists square_bdf. vm_compute. reflexivity.
  - reflexivity.
Defined.

Lemma triangle_edges_linked_witness :
  ∃ e N1 N2,
    dict_get (3, 4)%Z (mesh_edges square_mesh) = Some e ∧
    n1 e = 3%Z ∧ n2 e = 4%Z ∧ 1 ∈ edge_trias e ∧
    mesh_nodes square_mesh !! 3%Z = Some N1 ∧ (3, 4)%Z ∈ node_edges N1 ∧
    mesh_nodes square_mesh !! 4%Z = Some N2 ∧ (3, 4)%Z ∈ node_edges N2.
Proof.
  apply (triangle_edges_linked 0%Z square_mesh 1
           (mkTria 2 (4, 3, 2)%Z [(2, 3); (3, 4); (2, 4)]%Z) (3, 4)%Z).
  - left. exists square_bdf. vm_compute. reflexivity.
  - reflexivity.
  - compute_done.
Defined.

Lemma edges_supported_witness :
  edge_trias (mkEdge 2 3 [0; 1]) ≠ [] ∧
  ∀ i, i ∈ edge_trias (mkEdge 2 3 [0; 1]) →
    ∃ T, mesh_elements square_mesh !! i = Some T ∧ (2, 3)%Z ∈ tria_edges T.
Proof.
  apply (proj1 (edges_supported 0%Z) square_mesh).
  - left. exists square_bdf. vm_compute. reflexivity.
  - apply (list_elem_of_lookup_2 _ 1). reflexivity.
Defined.

Example read_mesh_quad :
  read_mesh quad_bdf = Raise (NotImplementedError "CQUAD4").
Proof. vm_compute. reflexivity. Qed.

Lemma read_mesh_unsupported_element_witness :
  (∃ kind, read_mesh quad_bdf = Raise (NotImplementedError kind)) ∧
  ∀ mesh, read_mesh quad_bdf ≠ Ok mesh.
Proof.
  apply (proj1 (read_mesh_unsupported_element quad_bdf) (CQUAD4 2 1 2 4 3)).
  - apply (list_elem_of_lookup_2 _ 1). reflexivity.
  - reflexivity.
Defined.

Lemma edge_keys_unique_witness :
  ¬ same_edge (2, 3)%Z (3, 4)%Z ∧
  ¬ same_edge (n1 (mkEdge 2 3 [0; 1]), n2 (mkEdge 2 3 [0; 1]))
              (n1 (mkEdge 3 4 [1]), n2 (mkEdge 3 4 [1])).
Proof.
  apply (edge_keys_unique 0%Z square_mesh 1 3 (2, 3)%Z (mkEdge 2 3 [0; 1])
           (3, 4)%Z (mkEdge 3 4 [1])).
  - left. exists square_bdf. vm_compute. reflexivity.
  - reflexivity.
  - reflexivity.
  - lia.
Defined.

Lemma node_incidence_exact_witness :
  let N := GRID 2 [1; 0; 0]%Z {[1; 2]}%Z
             {[(1, 2); (2, 3); (2, 4)]}%Z ∅ None in
  (∀ t, t ∈ node_trias N ↔
     ∃ i T, mesh_elements square_mesh !! i = Some T ∧ eid T = t ∧
       2%Z ∈ node_id_list T) ∧
  (∀ k, k ∈ node_edges N ↔
     k ∈ (mesh_edges square_mesh).*1 ∧ (k.1 = 2%Z ∨ k.2 = 2%Z)) ∧
  (∀ bdf, read_mesh bdf = Ok square_mesh →
     ∃ N0, bdf_nodes bdf !! 2%Z = Some N0 ∧ nid N = nid N0) ∧
  (∀ points simplices,
     read_delaunay 0%Z points simplices = Ok square_mesh → nid N = 2%Z).
Proof.
  apply (node_incidence_exact 0%Z square_mesh 2%Z).
  - left. exists square_bdf. vm_compute. reflexivity.
  - vm_compute. reflexivity.
Defined.

Lemma read_delaunay_numbering_witness :
  size (mesh_nodes square_mesh) = length square_points ∧
  (∀ n, is_Some (mesh_nodes square_mesh !! n) ↔
     (1 ≤ n ≤ Z.of_nat (length square_points))%Z) ∧
  (∀ j pt, square_points !! j = Some pt →
     ∃ N, mesh_nodes square_mesh !! (Z.of_nat j + 1)%Z = Some N ∧
       nid N = (Z.of_nat j + 1)%Z ∧ xyz N = embed_point 0%Z pt ∧
       ∀ x y, pt = [x; y] → xyz N = [x; y; 0%Z]) ∧
  length (mesh_elements square_mesh) = length square_simplices ∧
  (∀ j T, mesh_elements square_mesh !! j = Some T →
     eid T = (Z.of_nat j + 1)%Z ∧
     ∃ i1 i2 i3, square_simplices !! j = Some [i1; i2; i3] ∧
       node_ids T
       = (nid_at (length square_points) i1,
          nid_at (length square_points) i2,
          nid_at (length square_points) i3)).
Proof.
  apply (read_delaunay_numbering 0%Z square_points square_simplices).
  vm_compute. reflexivity.
Defined.

Lemma edge_trias_processing_order_witness :
  let e := mkEdge 2 3 [0; 1] in
  edge_trias e = occ (2, 3)%Z (edge_events (mesh_elements square_mesh)) ∧
  (∀ i, i ∈ edge_trias e ↔
     ∃ T, mesh_elements square_mesh !! i = Some T ∧
       (2, 3)%Z ∈ get_edge_ids T) ∧
  StronglySorted le (edge_trias e).
Proof.
  apply (edge_trias_processing_order 0%Z square_mesh).
  - left. exists square_bdf. vm_compute. reflexivity.
  - apply (list_elem_of_lookup_2 _ 1). reflexivity.
Defined.

Lemma two_triangles_shared_key (k' : EdgeKey) :
  k' ∈ [edge_key 1 2; edge_key 2 3; edge_key 3 1] ∧
  k' ∈ [edge_key 4 3; edge_key 3 2; edge_key 2 4] ↔ k' = (2, 3)%Z.
Proof.
  change (k' ∈ [(1, 2); (2, 3); (1, 3)]%Z
          ∧ k' ∈ [(3, 4); (2, 3); (2, 4)]%Z ↔ k' = (2, 3)%Z).
  rewrite !elem_of_cons, !elem_of_nil. split.
  - intros [[->|[->|[->|[]]]] [?|[?|[?|[]]]]]; congruence.
  - intros ->. auto.
Qed.

Lemma two_triangles_five_edges_witness :
  ∃ mesh,
    read_delaunay 0%Z square_points [[0; 1; 2]; [3; 2; 1]]%Z = Ok mesh ∧
    node_ids <$> mesh_elements mesh = [(1, 2, 3); (4, 3, 2)]%Z ∧
    length (mesh_edges mesh) = 5 ∧
    (∃ ed, dict_get (2, 3)%Z (mesh_edges mesh) = Some ed ∧
       edge_trias ed = [0; 1]) ∧
    (∀ k' ed, (k', ed) ∈ mesh_edges mesh → k' ≠ (2, 3)%Z →
       length (edge_trias ed) = 1).
Proof.
  apply (proj2 (two_triangles_five_edges 0%Z 1 2 3 4 3 2 (2, 3)%Z
                  ltac:(compute_done) ltac:(compute_done)
                  two_triangles_shared_key)
           square_points 0 1 2 3 2 1)%Z.
  - compute_done.
  - compute_done.
  - reflexivity.
Defined.

(** C10 fails as stated: the second of the ragged points has 1 coordinate
    and the third has 4; [read_delaunay] hands them unchanged to the node
    constructor, which rejects the first of them: the call raises
    [AssertionError] and returns no mesh, although every simplex is valid. *)
Lemma point_dimension_counterexample :
  Forall (valid_simplex (length ragged_points)) square_simplices ∧
  read_delaunay 0%Z ragged_points square_simplices = Raise AssertionError ∧
  ¬ dimension_unchecked 0%Z ragged_points square_simplices.
Proof.
  assert (Forall (valid_simplex (length ragged_points)) square_simplices)
    as Hvalid.
  { repeat constructor; eexists _, _, _; (split; [reflexivity|]);
      unfold valid_index; simpl; lia. }
  split; [done|]. split; [vm_compute; reflexivity|].
  intros Hclaim. destruct (Hclaim Hvalid) as (mesh & Hrd & _).
  vm_compute in Hrd. discriminate Hrd.
Qed.

Lemma read_delaunay_point_dimension_witness :
  ∃ N, mesh_nodes square_mesh !! (Z.of_nat 1 + 1)%Z = Some N ∧
    xyz N = if decide (length [1; 0]%Z = 2) then [1; 0]%Z ++ [0%Z]
            else [1; 0]%Z.
Proof.
  apply (proj1 (proj2 (read_delaunay_point_dimension 0%Z square_points
                         square_simplices))).
  - vm_compute. reflexivity.
  - reflexivity.
Defined.

(** * Further properties of the readers *)

Lemma foldlM_Raise_inv {A B : Type} (I : A → Prop) (P : exn → Prop)
    (f : A → B → result A) a l e :
  (∀ a x a', I a → x ∈ l → f a x = Ok a' → I a') →
  (∀ a x e, I a → x ∈ l → f a x = Raise e → P e) →
  I a → foldlM f a l = Raise e → P e.
Proof.
  revert a. induction l as [|x l IH]; intros a Hstep Hraise Ha; simpl; [done|].
  destruct (f a x) as [a'|e'] eqn:Hfx; simpl.
  - apply IH.
    + intros a1 y a2 H1 Hy. apply Hstep; [done|by right].
    + intros a1 y e1 H1 Hy. apply Hraise; [done|by right].
    + eapply Hstep; [done|left|done].
  - intros [= <-]. eapply Hraise; [done|left|done].
Qed.

Section Coverage.

Context {coord : Type} (zero : coord).
Implicit Types (nodes : gmap Z (@Node coord)) (mesh : @Mesh coord).
Implicit Types (bdf : @BDF coord).

Lemma nodes_getitem_Raise_inv nodes n e :
  nodes_getitem nodes n = Raise e → e = KeyError n ∧ nodes !! n = None.
Proof.
  unfold nodes_getitem. destruct (nodes !! n); [done|]. by intros [= <-].
Qed.

Lemma create_edge_Raise nodes edges a b ts e :
  create_edge (nodes, edges) ((a, b), ts) = Raise e →
  ∃ n, e = KeyError n ∧ nodes !! n = None ∧ (n = a ∨ n = b).
Proof.
  unfold create_edge.
  destruct (nodes_getitem nodes a) eqn:Ha; simpl.
  - destruct (nodes_getitem nodes b) eqn:Hb; simpl; [done|].
    intros [= <-]. apply nodes_getitem_Raise_inv in Hb as [-> Hb]. eauto.
  - intros [= <-]. apply nodes_getitem_Raise_inv in Ha as [-> Ha]. eauto.
Qed.

Lemma create_edges_Raise d nodes e :
  foldlM create_edge (nodes, []) d = Raise e →
  ∃ n k, e = KeyError n ∧ nodes !! n = None ∧ k ∈ d.*1 ∧ (n = k.1 ∨ n = k.2).
Proof.
  intros Hr.
  apply (foldlM_Raise_inv
           (λ st, ∀ n, st.1 !! n = None ↔ nodes !! n = None)
           (λ e, ∃ n k, e = KeyError n ∧ nodes !! n = None ∧ k ∈ d.*1 ∧
                        (n = k.1 ∨ n = k.2))
           create_edge (nodes, []) d e); [| |done|exact Hr].
  - intros [nodes1 edges1] [[a b] ts] st' Hinv _ Hst.
    apply create_edge_Ok in Hst as (_ & _ & ->). simpl in *. intros n.
    rewrite <-Hinv, !eq_None_not_Some, !lookup_alter_is_Some. done.
  - intros [nodes1 edges1] [[a b] ts] e' Hinv Hin Hst. simpl in Hinv.
    apply create_edge_Raise in Hst as (n & -> & Hn & Hab).
    exists n, (a, b). split_and!; [done|by apply Hinv| |done].
    apply list_elem_of_fmap. by exists (a, b, ts).
Qed.

(** The [KeyError] that [build_adjacency] raises names a node id that a
    triangle uses and that [mesh.nodes] lacks. *)
Lemma build_adjacency_KeyError nodes trias e :
  build_adjacency nodes trias = Raise e →
  ∃ n, e = KeyError n ∧ nodes !! n = None ∧
    ∃ T, T ∈ trias ∧ n ∈ node_id_list T.
Proof.
  unfold build_adjacency. rewrite group_trias_events. unfold create_edges.
  destruct (foldlM create_edge _ _) as [[nodes1 edges]|e1] eqn:Hce; simpl.
  - destruct (register_trias _ _) as [nodes2|e2] eqn:Hrt; simpl; [done|].
    intros _. exfalso.
    pose proof (group_events_NoDup [] (edge_events trias) (NoDup_nil_2)) as Hnd.
    pose proof (create_edges_edges _ _ [] _ _ Hnd Hce) as He.
    simpl in He. subst edges. rewrite attach_edges_flatten in Hrt.
    destruct (register_trias_total
                (foldl attach_event trias
                   (flatten (group_events [] (edge_events trias)))) nodes1)
      as [? Hok]; [|congruence].
    intros T m [i HT]%list_elem_of_lookup Hm.
    rewrite attach_events_lookup in HT.
    destruct (trias !! i) as [T0|] eqn:HT0; [|done]. simpl in HT.
    injection HT as <-. rewrite (create_edges_nodes _ _ _ _ _ m Hce).
    apply fmap_is_Some.
    destruct (node_id_list_covered T0 m Hm) as (k & Hk & Hkm).
    assert (k ∈ (group_events [] (edge_events trias)).*1) as Hin.
    { apply elem_of_group_keys, elem_of_edge_events_keys. eauto. }
    destruct (create_edges_present _ _ _ _ _ Hce k Hin) as [H1 H2].
    by destruct Hkm as [<-|<-].
  - intros [= <-].
    apply create_edges_Raise in Hce as (n & k & -> & Hn & Hk & Hnk).
    exists n. split_and!; [done..|].
    apply elem_of_group_keys, elem_of_edge_events_keys in Hk
      as (i & T & HT & Hk).
    exists T. split; [by eapply list_elem_of_lookup_2|].
    destruct (get_edge_ids_endpoints T k Hk) as (H1 & H2 & _).
    by destruct Hnk as [->| ->].
Qed.

Lemma referenced_as_tria (elements : list Element) trias n :
  as_tria <$> elements = Some <$> trias →
  referenced elements n ↔ ∃ T, T ∈ trias ∧ n ∈ node_id_list T.
Proof.
  intros Hts. unfold referenced. split.
  - intros (eid & a & b & c & [j Hel]%list_elem_of_lookup & Hn).
    apply (f_equal (λ l, l !! j)) in Hts.
    rewrite !list_lookup_fmap, Hel in Hts. simpl in Hts.
    destruct (trias !! j) as [T|] eqn:HT; [|done]. injection Hts as <-.
    eexists. split; [by eapply list_elem_of_lookup_2|done].
  - intros (T & [j HT]%list_elem_of_lookup & Hn).
    apply (f_equal (λ l, l !! j)) in Hts.
    rewrite !list_lookup_fmap, HT in Hts. simpl in Hts.
    destruct (elements !! j) as [elem|] eqn:Hel; [|done].
    destruct elem as [eid a b c| |]; simplify_eq/=.
    exists eid, a, b, c. split; [by eapply list_elem_of_lookup_2|done].
Qed.

Lemma as_tria_all_CTRIA3 (elements : list Element) trias :
  as_tria <$> elements = Some <$> trias →
  Forall (λ elem, is_CTRIA3 elem = true) elements.
Proof.
  revert trias. induction elements as [|elem elements IH]; intros trias Hts.
  - constructor.
  - destruct trias as [|T trias]; [done|]. csimpl in Hts.
    injection Hts as Hel Hts. constructor; [by destruct elem|by eapply IH].
Qed.

Lemma read_mesh_Ok_iff bdf :
  (∃ mesh, read_mesh bdf = Ok mesh) ↔
    Forall (λ elem, is_CTRIA3 elem = true) (bdf_elements bdf) ∧
    ∀ n, referenced (bdf_elements bdf) n → is_Some (bdf_nodes bdf !! n).
Proof.
  split.
  - intros [mesh (trias & Hts & Hb)%read_mesh_Ok].
    apply build_adjacency_Ok in Hb as (_ & _ & _ & Hpres). split.
    + by eapply as_tria_all_CTRIA3.
    + intros n (T & HT & Hn)%(referenced_as_tria _ _ _ Hts).
      specialize (Hpres T n HT Hn).
      by rewrite lookup_fmap, fmap_is_Some in Hpres.
  - intros [Hall Hnodes]. apply read_mesh_total; [done|].
    intros eid a b c Hin.
    split_and!; apply Hnodes; exists eid, a, b, c; (split; [done|]);
      set_solver.
Qed.

(** X1: [read_mesh] returns a mesh exactly when the parser returns a deck
    in which every element is a [CTRIA3] and every node id a [CTRIA3] uses
    is a key of [mesh.nodes]. *)
Theorem read_mesh_succeeds_iff (read_bdf : string → result BDF) filepath :
  (∃ mesh, read_mesh_filepath read_bdf filepath = Ok mesh) ↔
    ∃ bdf, read_bdf filepath = Ok bdf ∧
      Forall (λ elem, is_CTRIA3 elem = true) (bdf_elements bdf) ∧
      ∀ n, referenced (bdf_elements bdf) n → is_Some (bdf_nodes bdf !! n).
Proof.
  setoid_rewrite read_mesh_filepath_Ok. split.
  - intros (mesh & bdf & Hbdf & Hrm). exists bdf. split; [done|].
    apply read_mesh_Ok_iff. eauto.
  - intros (bdf & Hbdf & [mesh Hrm]%read_mesh_Ok_iff). eauto.
Qed.

Lemma read_mesh_Raise_cases bdf e :
  read_mesh bdf = Raise e →
  (∃ pre elem rest, bdf_elements bdf = pre ++ elem :: rest ∧
     Forall (λ y, is_CTRIA3 y = true) pre ∧ is_CTRIA3 elem = false ∧
     e = NotImplementedError (type_name elem)) ∨
  (Forall (λ y, is_CTRIA3 y = true) (bdf_elements bdf) ∧
   ∃ n, e = KeyError n ∧ bdf_nodes bdf !! n = None ∧
     referenced (bdf_elements bdf) n).
Proof.
  unfold read_mesh.
  destruct (collect_trias (bdf_elements bdf)) as [trias|e'] eqn:Hc; simpl.
  - intros (n & -> & Hn & HT)%build_adjacency_KeyError. right.
    rewrite collect_trias_unfold in Hc.
    apply collect_steps_Ok in Hc as (ts & Hts & ->). simpl in HT. split.
    + by eapply as_tria_all_CTRIA3.
    + exists n. split_and!; [done| |by eapply referenced_as_tria].
      rewrite lookup_fmap in Hn. by destruct (bdf_nodes bdf !! n).
  - intros [= <-]. left. rewrite collect_trias_unfold in Hc.
    by apply collect_steps_Raise in Hc.
Qed.

(** X2: when [read_mesh] raises, either the parser has raised that
    exception, or the parser has returned a deck and the exception is
    [NotImplementedError] for the first element that is not a [CTRIA3], or,
    all elements being [CTRIA3], [KeyError] for a node id that an element
    uses and that [mesh.nodes] lacks. *)
Theorem read_mesh_raises (read_bdf : string → result BDF) filepath e :
  read_mesh_filepath read_bdf filepath = Raise e →
  read_bdf filepath = Raise e ∨
  ∃ bdf, read_bdf filepath = Ok bdf ∧
    ((∃ pre elem rest, bdf_elements bdf = pre ++ elem :: rest ∧
        Forall (λ y, is_CTRIA3 y = true) pre ∧ is_CTRIA3 elem = false ∧
        e = NotImplementedError (type_name elem)) ∨
     (Forall (λ y, is_CTRIA3 y = true) (bdf_elements bdf) ∧
      ∃ n, e = KeyError n ∧ bdf_nodes bdf !! n = None ∧
        referenced (bdf_elements bdf) n)).
Proof.
  unfold read_mesh_filepath.
  destruct (read_bdf filepath) as [bdf|e'] eqn:Hbdf; simpl.
  - intros Hr%read_mesh_Raise_cases. right. eauto.
  - intros [= <-]. by left.
Qed.

Lemma py_getitem_Raise {A : Type} (l : list A) (i : Z) e :
  py_getitem l i = Raise e → e = IndexError i ∧ ¬ valid_index (length l) i.
Proof.
  unfold py_getitem, valid_index. simpl.
  destruct (decide (i < 0)%Z); case_decide as Hr;
    try (intros [= <-]; split; [done|lia]).
  - destruct (l !! Z.to_nat (Z.of_nat (length l) + i)) eqn:Hl; [done|].
    apply lookup_ge_None in Hl. lia.
  - destruct (l !! Z.to_nat i) eqn:Hl; [done|].
    apply lookup_ge_None in Hl. lia.
Qed.

Lemma py_getitem_valid {A : Type} (l : list A) (i : Z) x :
  py_getitem l i = Ok x → valid_index (length l) i.
Proof. intros Hx%py_getitem_Ok. simpl in Hx. apply Hx. Qed.

Lemma make_tria_cases (nl : list (@Node coord)) st simplex :
  (∃ st', make_tria nl st simplex = Ok st' ∧
     valid_simplex (length nl) simplex) ∨
  (∃ e, make_tria nl st simplex = Raise e ∧
     ((e = ValueError ∧ length simplex ≠ 3) ∨
      ∃ i, e = IndexError i ∧ i ∈ simplex ∧ ¬ valid_index (length nl) i)).
Proof.
  destruct st as [eid trias]. unfold make_tria.
  destruct simplex as [|i1 [|i2 [|i3 [|]]]];
    try (right; eexists; split; [done|]; left; by split).
  destruct (py_getitem nl i1) as [N1|e1] eqn:H1; simpl.
  2:{ right. eexists. split; [done|]. right.
      apply py_getitem_Raise in H1 as [-> H1]. exists i1. set_solver. }
  destruct (py_getitem nl i2) as [N2|e2] eqn:H2; simpl.
  2:{ right. eexists. split; [done|]. right.
      apply py_getitem_Raise in H2 as [-> H2]. exists i2. set_solver. }
  destruct (py_getitem nl i3) as [N3|e3] eqn:H3; simpl.
  2:{ right. eexists. split; [done|]. right.
      apply py_getitem_Raise in H3 as [-> H3]. exists i3. set_solver. }
  left. eexists. split; [done|]. exists i1, i2, i3.
  split_and!; [done|by eapply py_getitem_valid..].
Qed.

Lemma make_trias_Raise (nl : list (@Node coord)) st simplices e :
  foldlM (make_tria nl) st simplices = Raise e →
  ∃ pre simplex rest, simplices = pre ++ simplex :: rest ∧
    Forall (valid_simplex (length nl)) pre ∧
    ((e = ValueError ∧ length simplex ≠ 3) ∨
     ∃ i, e = IndexError i ∧ i ∈ simplex ∧ ¬ valid_index (length nl) i).
Proof.
  revert st. induction simplices as [|s simplices IH]; intros st; [done|].
  simpl. destruct (make_tria_cases nl st s) as [(st' & -> & Hs)|(e' & -> & He)].
  - simpl. intros (pre & x & rest & -> & Hpre & Hx)%IH.
    exists (s :: pre), x, rest. split_and!; [done| |done]. by constructor.
  - simpl. intros [= <-]. exists [], s, simplices. by split_and!.
Qed.

Lemma delaunay_build_total points simplices trias :
  imap (tria_of_simplex (imap (node_of_point zero) points)) simplices
    = Ok <$> trias →
  ∃ mesh, build_adjacency (point_nodes zero points).2 trias = Ok mesh.
Proof.
  intros Hts. apply build_adjacency_total.
  intros T m [j HT]%list_elem_of_lookup Hm.
  destruct (delaunay_trias_lookup _ _ _ _ _ _ Hts HT)
    as (i1 & i2 & i3 & _ & (? & ? & ? & [= <- <- <-] & H1 & H2 & H3) & ->).
  rewrite point_nodes_lookup.
  apply nid_at_bounds in H1, H2, H3.
  unfold node_id_list in Hm. simpl in Hm.
  assert (1 ≤ m ≤ Z.of_nat (length points))%Z as Hb.
  { rewrite !elem_of_cons, elem_of_nil in Hm. naive_solver. }
  rewrite decide_True by done. apply fmap_is_Some.
  apply lookup_lt_is_Some_2. lia.
Qed.

(** X3: when [read_delaunay] raises, either some point has neither 2 nor
    3 coordinates and the exception is the [AssertionError] of the node
    constructor for the first such point, or all points have 2 or 3
    coordinates, the simplices before the offending one are all triples of
    indices into [points], and the exception is [ValueError] (the simplex
    has not exactly 3 entries) or [IndexError] for an entry of it outside
    [-N, N), [N] the number of points; it never raises [KeyError]. *)
Theorem read_delaunay_raises points simplices e :
  read_delaunay zero points simplices = Raise e →
  (e = AssertionError ∧
   ∃ pre pt rest, points = pre ++ pt :: rest ∧
     Forall good_point pre ∧ ¬ good_point pt) ∨
  (Forall good_point points ∧
   ∃ pre simplex rest, simplices = pre ++ simplex :: rest ∧
     Forall (valid_simplex (length points)) pre ∧
     ((e = ValueError ∧ length simplex ≠ 3) ∨
      ∃ i, e = IndexError i ∧ i ∈ simplex ∧
        ¬ valid_index (length points) i)).
Proof.
  unfold read_delaunay.
  destruct (make_nodes zero points) as [st|e'] eqn:Hmn; simpl.
  - apply make_nodes_Ok in Hmn as [Hgood ->].
    destruct (point_nodes_spec zero points) as (m & Hmk & _).
    rewrite Hmk.
    destruct (make_trias _ simplices) as [[eid trias]|e'] eqn:Hmt; simpl.
    + intros Hr. exfalso. apply make_trias_Ok in Hmt as [_ Hts].
      destruct (delaunay_build_total _ _ _ Hts) as [mesh Hb].
      rewrite Hmk in Hb. simpl in Hb. congruence.
    + intros [= <-]. right. split; [done|]. rewrite make_trias_unfold in Hmt.
      apply make_trias_Raise in Hmt. by rewrite length_imap in Hmt.
  - intros [= <-]. left. by apply make_nodes_Raise in Hmn.
Qed.

(** X4: [read_mesh] neither adds nor removes a node, and leaves the id and
    the coordinates of every node as the deck has them. *)
Theorem read_mesh_keeps_nodes bdf mesh :
  read_mesh bdf = Ok mesh →
  dom (mesh_nodes mesh) = dom (bdf_nodes bdf) ∧
  ∀ n N, mesh_nodes mesh !! n = Some N →
    ∃ N0, bdf_nodes bdf !! n = Some N0 ∧ nid N = nid N0 ∧ xyz N = xyz N0.
Proof.
  intros (trias & _ & Hb)%read_mesh_Ok.
  apply build_adjacency_Ok in Hb as (_ & _ & Hnodes & _). split.
  - apply set_eq. intros n.
    by rewrite !elem_of_dom, Hnodes, lookup_fmap, !fmap_is_Some.
  - intros n N. rewrite Hnodes, lookup_fmap.
    destruct (bdf_nodes bdf !! n) as [N0|]; [|done]. simpl.
    intros [= <-]. eauto.
Qed.

(** X5: in a returned mesh every node has an empty [index] set and no
    [prop], whatever these slots held in the deck. *)
Theorem returned_nodes_slots mesh n N :
  returned_mesh zero mesh → mesh_nodes mesh !! n = Some N →
  node_index N = ∅ ∧ node_prop N = None.
Proof.
  intros [[bdf Hrm]|(points & simplices & Hrd)] HN.
  - apply read_mesh_Ok in Hrm as (trias & _ & Hb).
    apply build_adjacency_Ok in Hb as (_ & _ & Hnodes & _).
    rewrite Hnodes, lookup_fmap in HN.
    destruct (bdf_nodes bdf !! n) as [N0|]; [|done]. simpl in HN.
    by injection HN as <-.
  - destruct (read_delaunay_nodes_lookup _ _ _ _ n Hrd) as (S & E & Hl).
    rewrite Hl in HN. case_decide; [|done].
    destruct (points !! _); [|done]. simpl in HN. by injection HN as <-.
Qed.

Lemma as_tria_to_element elem T :
  as_tria elem = Some T → to_element T = elem.
Proof. destruct elem; [|done..]. by intros [= <-]. Qed.

(** X6: [read_mesh] returns the deck's elements as triangles, one per
    element, in the deck's order, with the element's id and node ids. *)
Theorem read_mesh_keeps_elements bdf mesh :
  read_mesh bdf = Ok mesh →
  to_element <$> mesh_elements mesh = bdf_elements bdf.
Proof.
  intros (trias & Hts & Hb)%read_mesh_Ok.
  apply build_adjacency_Ok in Hb as (_ & Hel & _). rewrite Hel.
  apply list_eq. intros j.
  apply (f_equal (λ l, l !! j)) in Hts. simpl in Hts.
  rewrite !list_lookup_fmap in Hts.
  rewrite list_lookup_fmap, attach_events_lookup.
  destruct (trias !! j) as [T|]; simpl in *.
  - destruct (bdf_elements bdf !! j) as [elem|]; [|done]. simpl in Hts.
    injection Hts as Hel'. f_equal. apply as_tria_to_element in Hel' as <-.
    done.
  - by destruct (bdf_elements bdf !! j).
Qed.

(** X7: every edge of a returned mesh is stored under the pair of its
    endpoint ids, taken in ascending order, and both endpoints are nodes of
    the mesh. *)
Theorem returned_edge_endpoints mesh k e :
  returned_mesh zero mesh → (k, e) ∈ mesh_edges mesh →
  dict_get k (mesh_edges mesh) = Some e ∧
  (n1 e, n2 e) = k ∧ (n1 e ≤ n2 e)%Z ∧
  is_Some (mesh_nodes mesh !! n1 e) ∧ is_Some (mesh_nodes mesh !! n2 e).
Proof.
  intros (nodes & trias & _ & Hb)%returned_mesh_built Hin.
  pose proof (built_edges_NoDup _ _ _ Hb) as Hnd.
  assert (k ∈ (mesh_edges mesh).*1) as Hk.
  { apply list_elem_of_fmap. by exists (k, e). }
  pose proof (built_edges_sorted _ _ _ _ Hb Hk) as Hle.
  split; [by apply elem_of_dict_get|].
  pose proof Hin as [-> _]%(built_edges_lookup _ _ _ _ _ Hb). simpl.
  split; [by destruct k|]. split; [done|].
  apply (built_edges_keys _ _ _ _ Hb) in Hk as (i & T & HT & HkT).
  pose proof Hb as (_ & Hel & Hnodes & Hpres)%build_adjacency_Ok.
  rewrite Hel, attach_events_lookup in HT.
  destruct (trias !! i) as [T0|] eqn:HT0; [|done]. simpl in HT.
  injection HT as <-.
  destruct (get_edge_ids_endpoints _ k HkT) as (H1 & H2 & _).
  rewrite !Hnodes, !fmap_is_Some.
  split; eapply (Hpres T0); eauto using list_elem_of_lookup_2.
Qed.

(** X8: every node id of a triangle of a returned mesh is a key of
    [mesh.nodes], and the node there has the triangle's id in its
    incident-triangle set. *)
Theorem returned_triangle_nodes mesh i T n :
  returned_mesh zero mesh → mesh_elements mesh !! i = Some T →
  n ∈ node_id_list T →
  ∃ N, mesh_nodes mesh !! n = Some N ∧ eid T ∈ node_trias N.
Proof.
  intros (nodes & trias & _ & Hb)%returned_mesh_built HT Hn.
  pose proof Hb as (_ & Hel & Hnodes & Hpres)%build_adjacency_Ok.
  rewrite Hel, attach_events_lookup in HT.
  destruct (trias !! i) as [T0|] eqn:HT0; [|done]. simpl in HT.
  injection HT as <-. simpl.
  change (node_id_list _) with (node_id_list T0) in Hn.
  destruct (Hpres T0 n) as [N0 HN0]; [by eapply list_elem_of_lookup_2|done|].
  rewrite Hnodes, HN0. simpl. eexists. split; [done|]. simpl.
  apply elem_of_union_l, elem_of_list_to_set. unfold eids_at.
  apply list_elem_of_fmap. exists T0. split; [done|].
  apply list_elem_of_filter. split; [done|]. by eapply list_elem_of_lookup_2.
Qed.

Lemma length_flatten (d : dict (list nat)) :
  length (flatten d) = sum_list ((λ item, length item.2) <$> d).
Proof.
  unfold flatten. induction d as [|[k ts] d IH]; csimpl; [done|].
  by rewrite length_app, length_fmap, IH.
Qed.

Lemma length_edge_events_gen (g : nat → nat) trias :
  length (concat (imap (λ j tria, (λ k, (k, g j)) <$> get_edge_ids tria) trias))
  = 3 * length trias.
Proof.
  revert g. induction trias as [|t trias IH]; intros g; [done|].
  rewrite imap_cons. cbn [concat].
  rewrite length_app, length_fmap, length_get_edge_ids.
  change (3 + length (concat (imap
            (λ j tria, (λ k, (k, (g ∘ S) j)) <$> get_edge_ids tria) trias))
          = 3 * S (length trias)).
  rewrite (IH (g ∘ S)). lia.
Qed.

Lemma length_edge_events trias : length (edge_events trias) = 3 * length trias.
Proof. apply (length_edge_events_gen id). Qed.

Lemma length_le_sum_nonempty (d : dict (list nat)) :
  Forall (λ item, item.2 ≠ []) d →
  length d ≤ sum_list ((λ item, length item.2) <$> d).
Proof.
  induction 1 as [|[k ts] d Hts _ IH]; csimpl; [done|].
  destruct ts; [done|]. simpl. lia.
Qed.

(** X9: in a returned mesh the supporting-triangle lists of all edges have
    3 entries per triangle in total, so there are at most 3 edges per
    triangle. *)
Theorem returned_incidence_count mesh :
  returned_mesh zero mesh →
  sum_list ((λ item, length (edge_trias item.2)) <$> mesh_edges mesh)
  = 3 * length (mesh_elements mesh) ∧
  length (mesh_edges mesh) ≤ 3 * length (mesh_elements mesh).
Proof.
  intros (nodes & trias & _ & Hb)%returned_mesh_built.
  pose proof Hb as (Hed & Hel & _)%build_adjacency_Ok.
  assert (sum_list ((λ item, length (edge_trias item.2)) <$> mesh_edges mesh)
          = 3 * length (mesh_elements mesh)) as Hsum.
  { rewrite Hed, Hel, attach_events_length, <-list_fmap_compose.
    rewrite <-length_edge_events.
    rewrite <-(flatten_group_events [] (edge_events trias)) at 2.
    simpl. by rewrite length_flatten. }
  split; [done|]. rewrite <-Hsum, Hed, length_fmap, <-list_fmap_compose.
  apply length_le_sum_nonempty. apply Forall_forall.
  intros [k ts] [_ Hne]%elem_of_group. done.
Qed.

Lemma filter_all {A : Type} (P : A → Prop) `{!∀ x, Decision (P x)} (l : list A) :
  (∀ x, x ∈ l → P x) → filter P l = l.
Proof.
  induction l as [|x l IH]; intros Hall; [done|].
  rewrite filter_cons_True by (apply Hall; left).
  rewrite IH; [done|]. intros y Hy. apply Hall. by right.
Qed.

Lemma filter_none {A : Type} (P : A → Prop) `{!∀ x, Decision (P x)} (l : list A) :
  (∀ x, x ∈ l → ¬ P x) → filter P l = [].
Proof.
  induction l as [|x l IH]; intros Hall; [done|].
  rewrite filter_cons_False by (apply Hall; left).
  apply IH. intros y Hy. apply Hall. by right.
Qed.

Lemma edge_events_keys_gen (g : nat → nat) trias :
  (concat (imap (λ j tria, (λ k, (k, g j)) <$> get_edge_ids tria) trias)).*1
  = trias ≫= get_edge_ids.
Proof.
  revert g. induction trias as [|t trias IH]; intros g; [done|].
  rewrite imap_cons. cbn [concat]. rewrite fmap_app, fst_tagged. csimpl.
  f_equal. apply (IH (g ∘ S)).
Qed.

Lemma edge_events_keys trias :
  (edge_events trias).*1 = trias ≫= get_edge_ids.
Proof. apply (edge_events_keys_gen id). Qed.

Lemma group_events_keys d evs :
  (group_events d evs).*1
  = d.*1 ++ filter (λ k, k ∉ d.*1) (first_occurrences evs.*1).
Proof.
  revert d. induction evs as [|[k i] evs IH]; intros d.
  - change (d.*1 = d.*1 ++ []). by rewrite (right_id_L [] (++)).
  - change (group_events d ((k, i) :: evs))
      with (group_events (dd_append k i d) evs).
    rewrite IH, dd_append_keys. csimpl.
    destruct (decide (k ∈ d.*1)) as [Hk|Hk].
    + rewrite filter_cons_False by (intros Hn; by apply Hn).
      f_equal. rewrite list_filter_filter. apply list_filter_iff.
      intros x. split; [|naive_solver]. intros Hx. split; [done|].
      by intros ->.
    + rewrite filter_cons_True by done. rewrite <-(assoc_L (++)). csimpl.
      do 2 f_equal. rewrite list_filter_filter. apply list_filter_iff.
      intros x. rewrite not_elem_of_app, list_elem_of_singleton. tauto.
Qed.

Lemma built_edges_order nodes trias mesh :
  build_adjacency nodes trias = Ok mesh →
  (mesh_edges mesh).*1
  = first_occurrences (mesh_elements mesh ≫= get_edge_ids).
Proof.
  intros Hb. rewrite <-edge_events_keys, (built_edge_events _ _ _ Hb).
  apply build_adjacency_Ok in Hb as (-> & _).
  rewrite edge_of_keys, group_events_keys. simpl.
  apply filter_all. intros x _. apply not_elem_of_nil.
Qed.

(** X11: the edge mapping of a returned mesh holds the edge keys in the
    order of their first occurrence when the triangles are scanned in order,
    each with its keys in local order. *)
Theorem returned_edges_order mesh :
  returned_mesh zero mesh →
  (mesh_edges mesh).*1
  = first_occurrences (mesh_elements mesh ≫= get_edge_ids).
Proof.
  intros (nodes & trias & _ & Hb)%returned_mesh_built.
  by eapply built_edges_order.
Qed.

Lemma first_occurrences_app_NoDup (ks rest : list EdgeKey) :
  NoDup ks →
  first_occurrences (ks ++ rest)
  = ks ++ filter (λ k, k ∉ ks) (first_occurrences rest).
Proof.
  induction 1 as [|k ks Hk Hnd IH]; simpl.
  - symmetry. apply filter_all. intros x _. apply not_elem_of_nil.
  - f_equal. rewrite IH, filter_app. f_equal.
    + apply filter_all. intros x Hx ->. done.
    + rewrite list_filter_filter. apply list_filter_iff.
      intros x. rewrite not_elem_of_cons. tauto.
Qed.

Lemma count_NoDup (ks : list EdgeKey) k :
  NoDup ks → k ∈ ks → length (filter (λ k', k' = k) ks) = 1.
Proof.
  induction 1 as [|k0 ks Hk0 Hnd IH]; intros Hk; [by apply elem_of_nil in Hk|].
  apply elem_of_cons in Hk as [->|Hk].
  - rewrite filter_cons_True by done. simpl.
    rewrite filter_none; [done|]. by intros x Hx ->.
  - rewrite filter_cons_False by (by intros ->). by apply IH.
Qed.

Lemma bind_replicate_NoDup (ks all : list EdgeKey) :
  NoDup all → ks ⊆ all →
  ks ≫= (λ k, replicate (length (filter (λ k', k' = k) all)) k) = ks.
Proof.
  intros Hnd. induction ks as [|k ks IH]; intros Hsub; csimpl; [done|].
  rewrite count_NoDup, IH; [done|set_solver|done|set_solver].
Qed.

Lemma bind_replicate_disjoint (ks all : list EdgeKey) :
  (∀ k, k ∈ ks → k ∉ all) →
  ks ≫= (λ k, replicate (length (filter (λ k', k' = k) all)) k) = [].
Proof.
  induction ks as [|k ks IH]; intros Hdis; csimpl; [done|].
  rewrite filter_none, IH; [done| |].
  - intros k' Hk'. apply Hdis. by right.
  - intros x Hx ->. by apply (Hdis k); [left|].
Qed.

(** X12: the first triangle of a returned mesh, when its three node ids
    differ, has its edge list in its local enumeration order: its edges are
    the first three that are created. *)
Theorem first_triangle_local_order mesh T :
  returned_mesh zero mesh → mesh_elements mesh !! 0 = Some T →
  nondegenerate T →
  tria_edges T = get_edge_ids T.
Proof.
  intros (nodes & trias & Hfresh & Hb)%returned_mesh_built HT
    Hnd%get_edge_ids_NoDup.
  destruct (built_tria_edges _ _ _ _ _ Hfresh Hb HT) as [_ ->].
  rewrite (built_edges_order _ _ _ Hb).
  destruct (mesh_elements mesh) as [|T' others]; [done|].
  injection HT as ->. csimpl.
  rewrite first_occurrences_app_NoDup by done.
  rewrite bind_app, bind_replicate_NoDup by done.
  rewrite bind_replicate_disjoint; [by rewrite (right_id_L [] (++))|].
  by intros k [Hk _]%list_elem_of_filter.
Qed.

Lemma built_edge_multiplicity nodes trias mesh k e i :
  build_adjacency nodes trias = Ok mesh → (k, e) ∈ mesh_edges mesh →
  length (filter (λ j, j = i) (edge_trias e))
  = from_option (λ T, length (filter (λ k', k' = k) (get_edge_ids T))) 0
      (mesh_elements mesh !! i).
Proof.
  intros Hb [-> _]%(built_edges_lookup _ _ _ _ _ Hb). simpl.
  rewrite length_filter_occ, filter_edge_events.
  pose proof Hb as (_ & Hel & _)%build_adjacency_Ok.
  rewrite Hel, attach_events_lookup.
  destruct (trias !! i) as [T0|]; simpl; [|done].
  by rewrite length_filter_tagged.
Qed.

Lemma count_le_1_NoDup (ks : list EdgeKey) k :
  NoDup ks → length (filter (λ k', k' = k) ks) ≤ 1.
Proof.
  intros Hnd. destruct (decide (k ∈ ks)) as [Hk|Hk].
  - by rewrite count_NoDup.
  - rewrite filter_none; [simpl; lia|]. by intros x Hx ->.
Qed.

Lemma NoDup_count_le_1 (l : list nat) :
  (∀ i, length (filter (λ j, j = i) l) ≤ 1) → NoDup l.
Proof.
  induction l as [|x l IH]; intros Hc; [constructor|].
  constructor.
  - intros Hx. specialize (Hc x). rewrite filter_cons_True in Hc by done.
    simpl in Hc. assert (length (filter (λ j, j = x) l) = 0) as Hz by lia.
    apply length_zero_iff_nil in Hz.
    assert (x ∈ filter (λ j, j = x) l) as Hin by (by apply list_elem_of_filter).
    rewrite Hz in Hin. by apply elem_of_nil in Hin.
  - apply IH. intros i. specialize (Hc i).
    destruct (decide (x = i)) as [->|Hne].
    + rewrite filter_cons_True in Hc by done. simpl in Hc. lia.
    + by rewrite filter_cons_False in Hc.
Qed.

(** X13: a triangle of a returned mesh is listed among the supporting
    triangles of an edge as many times as the edge's key occurs among the
    triangle's three edge keys: a triangle that repeats a node id is listed
    twice under the repeated pair, one whose node ids differ at most once. *)
Theorem edge_trias_multiplicity mesh k e i T :
  returned_mesh zero mesh → (k, e) ∈ mesh_edges mesh →
  mesh_elements mesh !! i = Some T →
  length (filter (λ j, j = i) (edge_trias e))
  = length (filter (λ k', k' = k) (get_edge_ids T)) ∧
  (nondegenerate T → length (filter (λ j, j = i) (edge_trias e)) ≤ 1).
Proof.
  intros (nodes & trias & _ & Hb)%returned_mesh_built Hin HT.
  rewrite (built_edge_multiplicity _ _ _ _ _ i Hb Hin), HT. simpl.
  split; [done|]. intros Hnd%get_edge_ids_NoDup. by apply count_le_1_NoDup.
Qed.

Lemma edge_key_strict a b : a ≠ b → ((edge_key a b).1 < (edge_key a b).2)%Z.
Proof. unfold edge_key. simpl. lia. Qed.

Lemma get_edge_ids_by_nodes T k :
  nondegenerate T →
  k ∈ get_edge_ids T ↔
    k.1 ∈ node_id_list T ∧ k.2 ∈ node_id_list T ∧ (k.1 < k.2)%Z.
Proof.
  unfold nondegenerate, node_id_list, get_edge_ids.
  destruct (node_ids T) as [[a b] c].
  rewrite !NoDup_cons, !not_elem_of_cons.
  intros ((Hab & Hac & _) & (Hbc & _) & _).
  destruct k as [p q]. unfold edge_key. simpl.
  rewrite !elem_of_cons, !elem_of_nil. split.
  - intros [[= -> ->]|[[= -> ->]|[[= -> ->]|[]]]]; lia.
  - intros ([->|[->|[->|[]]]] & [->|[->|[->|[]]]] & Hlt);
      try lia;
      first [ left; f_equal; lia
            | right; left; f_equal; lia
            | right; right; left; f_equal; lia ].
Qed.

(** X14: in a returned mesh all of whose triangles have three different
    node ids, no edge joins a node to itself and no edge lists a triangle
    twice. *)
Theorem nondegenerate_edges mesh k e :
  returned_mesh zero mesh →
  (∀ T, T ∈ mesh_elements mesh → nondegenerate T) →
  (k, e) ∈ mesh_edges mesh →
  (n1 e < n2 e)%Z ∧ NoDup (edge_trias e).
Proof.
  intros (nodes & trias & _ & Hb)%returned_mesh_built Hall Hin. split.
  - assert (k ∈ (mesh_edges mesh).*1) as Hk.
    { apply list_elem_of_fmap. by exists (k, e). }
    apply (built_edges_keys _ _ _ _ Hb) in Hk as (i & T & HT & HkT).
    apply get_edge_ids_by_nodes in HkT as (_ & _ & Hlt);
      [|by eapply Hall, list_elem_of_lookup_2].
    by apply (built_edges_lookup _ _ _ _ _ Hb) in Hin as [-> _].
  - apply NoDup_count_le_1. intros i.
    rewrite (built_edge_multiplicity _ _ _ _ _ i Hb Hin).
    destruct (mesh_elements mesh !! i) as [T|] eqn:HT; simpl; [|lia].
    apply count_le_1_NoDup, get_edge_ids_NoDup.
    by eapply Hall, list_elem_of_lookup_2.
Qed.

(** X15: an edge of a returned mesh that joins two different nodes is
    supported by a triangle with three different node ids exactly when both
    endpoints of the edge are nodes of the triangle. *)
Theorem edge_trias_by_nodes mesh k e i T :
  returned_mesh zero mesh → (k, e) ∈ mesh_edges mesh →
  mesh_elements mesh !! i = Some T → nondegenerate T → n1 e ≠ n2 e →
  i ∈ edge_trias e ↔ n1 e ∈ node_id_list T ∧ n2 e ∈ node_id_list T.
Proof.
  intros (nodes & trias & _ & Hb)%returned_mesh_built Hin HT Hnd Hne.
  assert (k ∈ (mesh_edges mesh).*1) as Hk.
  { apply list_elem_of_fmap. by exists (k, e). }
  pose proof (built_edges_sorted _ _ _ _ Hb Hk) as Hle.
  apply (built_edges_lookup _ _ _ _ _ Hb) in Hin as [-> _]. simpl in *.
  rewrite elem_of_occ, <-(built_edge_events _ _ _ Hb), elem_of_edge_events.
  rewrite HT. split.
  - intros (? & [= <-] & HkT). apply get_edge_ids_by_nodes in HkT; tauto.
  - intros [H1 H2]. exists T. split; [done|].
    apply get_edge_ids_by_nodes; [done|]. split_and!; [done..|lia].
Qed.

Lemma built_node_sets nodes trias mesh n N :
  fresh_input nodes trias → build_adjacency nodes trias = Ok mesh →
  mesh_nodes mesh !! n = Some N →
  (∀ t, t ∈ node_trias N ↔
     ∃ i T, mesh_elements mesh !! i = Some T ∧ eid T = t ∧
       n ∈ node_id_list T) ∧
  (∀ k, k ∈ node_edges N ↔
     k ∈ (mesh_edges mesh).*1 ∧ (k.1 = n ∨ k.2 = n)).
Proof.
  intros Hfresh Hb HN.
  pose proof Hb as (Hed & Hel & Hnodes & _)%build_adjacency_Ok.
  rewrite Hnodes in HN. destruct (nodes !! n) as [N0|] eqn:HN0; [|done].
  injection HN as <-. destruct Hfresh as [Hfresh _].
  destruct (Hfresh _ _ HN0) as [Ht He]. simpl. rewrite Ht, He. split.
  - intros t. rewrite elem_of_union, elem_of_list_to_set. unfold eids_at.
    rewrite list_elem_of_fmap. setoid_rewrite list_elem_of_filter. split.
    + intros [(T0 & -> & Hn & [i HT0]%list_elem_of_lookup)|Hemp]; [|set_solver].
      destruct (built_elements_of_input _ _ _ _ _ Hb HT0) as (T & HT & Hid & Hns).
      exists i, T. by rewrite Hid, (node_id_list_same _ _ Hns).
    + intros (i & T & HT & <- & Hn). left.
      rewrite Hel, attach_events_lookup in HT.
      destruct (trias !! i) as [T0|] eqn:HT0; [|done]. simpl in HT.
      injection HT as <-. exists T0. simpl.
      split_and!; [done..|]. by eapply list_elem_of_lookup_2.
  - intros k. rewrite elem_of_union, elem_of_list_to_set. unfold edges_at.
    rewrite list_elem_of_filter, Hed, edge_of_keys. set_solver.
Qed.

(** X16: in a returned mesh every incident edge of a node is an edge of one
    of the node's incident triangles, and a node has no incident edge
    exactly when it has no incident triangle. *)
Theorem node_edges_of_trias mesh n N :
  returned_mesh zero mesh → mesh_nodes mesh !! n = Some N →
  (∀ k, k ∈ node_edges N →
     ∃ i T, mesh_elements mesh !! i = Some T ∧ k ∈ get_edge_ids T ∧
       eid T ∈ node_trias N) ∧
  (node_edges N = ∅ ↔ node_trias N = ∅).
Proof.
  intros (nodes & trias & Hfresh & Hb)%returned_mesh_built HN.
  destruct (built_node_sets _ _ _ _ _ Hfresh Hb HN) as [Htr Hed].
  assert (∀ k, k ∈ node_edges N →
     ∃ i T, mesh_elements mesh !! i = Some T ∧ k ∈ get_edge_ids T ∧
       eid T ∈ node_trias N) as Hinc.
  { intros k [Hk Hn]%Hed.
    apply (built_edges_keys _ _ _ _ Hb) in Hk as (i & T & HT & HkT).
    exists i, T. split_and!; [done..|]. apply Htr. exists i, T.
    split_and!; [done..|].
    destruct (get_edge_ids_endpoints T k HkT) as (H1 & H2 & _).
    by destruct Hn as [<-|<-]. }
  split; [done|]. split.
  - intros He. apply set_eq. intros t. split; [|set_solver].
    intros (i & T & HT & _ & Hn)%Htr.
    destruct (node_id_list_covered T n Hn) as (k & HkT & Hkn).
    assert (k ∈ node_edges N) as Hk; [|set_solver].
    apply Hed. split; [|done]. apply (built_edges_keys _ _ _ _ Hb). eauto.
  - intros Ht. apply set_eq. intros k. split; [|set_solver].
    intros (i & T & _ & _ & Hin)%Hinc. set_solver.
Qed.

End Coverage.

(** ** The further properties on the concrete meshes *)

Example read_mesh_dangling : read_mesh dangling_bdf = Raise (KeyError 9).
Proof. vm_compute. reflexivity. Qed.

Example read_delaunay_overflowing :
  read_delaunay 0%Z square_points overflowing_simplices
  = Raise (IndexError 7).
Proof. vm_compute. reflexivity. Qed.

Example read_delaunay_degenerate :
  read_delaunay 0%Z square_points degenerate_simplices = Ok degenerate_mesh.
Proof. vm_compute. reflexivity. Qed.

Lemma read_mesh_raises_witness :
  let read_bdf := λ _ : string, Ok dangling_bdf in
  read_bdf "square.bdf" = Raise (KeyError 9) ∨
  ∃ bdf, read_bdf "square.bdf" = Ok bdf ∧
    ((∃ pre elem rest, bdf_elements bdf = pre ++ elem :: rest ∧
        Forall (λ y, is_CTRIA3 y = true) pre ∧ is_CTRIA3 elem = false ∧
        KeyError 9 = NotImplementedError (type_name elem)) ∨
     (Forall (λ y, is_CTRIA3 y = true) (bdf_elements bdf) ∧
      ∃ n, KeyError 9 = KeyError n ∧ bdf_nodes bdf !! n = None ∧
        referenced (bdf_elements bdf) n)).
Proof.
  apply (read_mesh_raises (λ _, Ok dangling_bdf) "square.bdf" (KeyError 9)).
  vm_compute. reflexivity.
Defined.

Lemma read_delaunay_raises_witness :
  (IndexError 7 = AssertionError ∧
   ∃ pre pt rest, square_points = pre ++ pt :: rest ∧
     Forall good_point pre ∧ ¬ good_point pt) ∨
  (Forall good_point square_points ∧
   ∃ pre simplex rest, overflowing_simplices = pre ++ simplex :: rest ∧
     Forall (valid_simplex (length square_points)) pre ∧
     ((IndexError 7 = ValueError ∧ length simplex ≠ 3) ∨
      ∃ i, IndexError 7 = IndexError i ∧ i ∈ simplex ∧
        ¬ valid_index (length square_points) i)).
Proof.
  apply (read_delaunay_raises 0%Z square_points overflowing_simplices).
  vm_compute. reflexivity.
Defined.

Lemma read_mesh_keeps_nodes_witness :
  dom (mesh_nodes square_mesh) = dom (bdf_nodes square_bdf) ∧
  ∀ n N, mesh_nodes square_mesh !! n = Some N →
    ∃ N0, bdf_nodes square_bdf !! n = Some N0 ∧ nid N = nid N0 ∧
      xyz N = xyz N0.
Proof.
  apply (read_mesh_keeps_nodes square_bdf square_mesh).
  vm_compute. reflexivity.
Defined.

Lemma returned_nodes_slots_witness :
  let N := GRID 2 [1; 0; 0]%Z {[1; 2]}%Z
             {[(1, 2); (2, 3); (2, 4)]}%Z ∅ None in
  node_index N = ∅ ∧ node_prop N = None.
Proof.
  apply (returned_nodes_slots 0%Z square_mesh 2%Z).
  - left. exists square_bdf. vm_compute. reflexivity.
  - vm_compute. reflexivity.
Defined.

Lemma read_mesh_keeps_elements_witness :
  to_element <$> mesh_elements square_mesh = bdf_elements square_bdf.
Proof.
  apply (read_mesh_keeps_elements square_bdf square_mesh).
  vm_compute. reflexivity.
Defined.

Lemma returned_edge_endpoints_witness :
  let e := mkEdge 2 3 [0; 1] in
  dict_get (2, 3)%Z (mesh_edges square_mesh) = Some e ∧
  (n1 e, n2 e) = (2, 3)%Z ∧ (n1 e ≤ n2 e)%Z ∧
  is_Some (mesh_nodes square_mesh !! n1 e) ∧
  is_Some (mesh_nodes square_mesh !! n2 e).
Proof.
  apply (returned_edge_endpoints 0%Z square_mesh).
  - left. exists square_bdf. vm_compute. reflexivity.
  - apply (list_elem_of_lookup_2 _ 1). reflexivity.
Defined.

Lemma returned_triangle_nodes_witness :
  ∃ N, mesh_nodes square_mesh !! 4%Z = Some N ∧
    eid (mkTria 2 (4, 3, 2)%Z [(2, 3); (3, 4); (2, 4)]%Z) ∈ node_trias N.
Proof.
  apply (returned_triangle_nodes 0%Z square_mesh 1).
  - left. exists square_bdf. vm_compute. reflexivity.
  - reflexivity.
  - compute_done.
Defined.

Lemma returned_incidence_count_witness :
  sum_list ((λ item, length (edge_trias item.2)) <$> mesh_edges square_mesh)
  = 3 * length (mesh_elements square_mesh) ∧
  length (mesh_edges square_mesh) ≤ 3 * length (mesh_elements square_mesh).
Proof.
  apply (returned_incidence_count 0%Z square_mesh).
  left. exists square_bdf. vm_compute. reflexivity.
Defined.

Lemma returned_edges_order_witness :
  (mesh_edges square_mesh).*1
  = first_occurrences (mesh_elements square_mesh ≫= get_edge_ids).
Proof.
  apply (returned_edges_order 0%Z square_mesh).
  left. exists square_bdf. vm_compute. reflexivity.
Defined.

Lemma first_triangle_local_order_witness :
  let T := mkTria 1 (1, 2, 3)%Z [(1, 2); (2, 3); (1, 3)]%Z in
  tria_edges T = get_edge_ids T.
Proof.
  apply (first_triangle_local_order 0%Z square_mesh).
  - left. exists square_bdf. vm_compute. reflexivity.
  - reflexivity.
  - unfold nondegenerate. compute_done.
Defined.

Lemma edge_trias_multiplicity_witness :
  let T := mkTria 1 (1, 1, 2)%Z [(1, 1); (1, 2); (1, 2)]%Z in
  let e := mkEdge 1 2 [0; 0] in
  length (filter (λ j, j = 0) (edge_trias e))
  = length (filter (λ k', k' = (1, 2)%Z) (get_edge_ids T)) ∧
  (nondegenerate T → length (filter (λ j, j = 0) (edge_trias e)) ≤ 1).
Proof.
  apply (edge_trias_multiplicity 0%Z degenerate_mesh).
  - right. exists square_points, degenerate_simplices. vm_compute.
    reflexivity.
  - apply (list_elem_of_lookup_2 _ 1). reflexivity.
  - reflexivity.
Defined.

Lemma nondegenerate_edges_witness :
  let e := mkEdge 2 3 [0; 1] in
  (n1 e < n2 e)%Z ∧ NoDup (edge_trias e).
Proof.
  apply (nondegenerate_edges 0%Z square_mesh (2, 3)%Z).
  - left. exists square_bdf. vm_compute. reflexivity.
  - intros T HT. change (T ∈ [mkTria 1 (1, 2, 3)%Z [(1, 2); (2, 3); (1, 3)]%Z;
                              mkTria 2 (4, 3, 2)%Z [(2, 3); (3, 4); (2, 4)]%Z])
      in HT.
    rewrite !elem_of_cons, elem_of_nil in HT.
    destruct HT as [->|[->|[]]]; unfold nondegenerate; compute_done.
  - apply (list_elem_of_lookup_2 _ 1). reflexivity.
Defined.

Lemma edge_trias_by_nodes_witness :
  let T := mkTria 1 (1, 2, 3)%Z [(1, 2); (2, 3); (1, 3)]%Z in
  let e := mkEdge 2 3 [0; 1] in
  0 ∈ edge_trias e ↔ n1 e ∈ node_id_list T ∧ n2 e ∈ node_id_list T.
Proof.
  apply (edge_trias_by_nodes 0%Z square_mesh (2, 3)%Z).
  - left. exists square_bdf. vm_compute. reflexivity.
  - apply (list_elem_of_lookup_2 _ 1). reflexivity.
  - reflexivity.
  - unfold nondegenerate. compute_done.
  - simpl. lia.
Defined.

Lemma node_edges_of_trias_witness :
  let N := GRID 2 [1; 0; 0]%Z {[1; 2]}%Z
             {[(1, 2); (2, 3); (2, 4)]}%Z ∅ None in
  (∀ k, k ∈ node_edges N →
     ∃ i T, mesh_elements square_mesh !! i = Some T ∧ k ∈ get_edge_ids T ∧
       eid T ∈ node_trias N) ∧
  (node_edges N = ∅ ↔ node_trias N = ∅).
Proof.
  apply (node_edges_of_trias 0%Z square_mesh 2%Z).
  - left. exists square_bdf. vm_compute. reflexivity.
  - vm_compute. reflexivity.
Defined.
